From stdpp Require Import gmap strings list fin_maps.

(** * The callbacks of a session (namespace [cql])

    [cql_session_callback_info_t] of cql_session_impl.hpp: four callback
    slots with a setter and a getter each. *)

Module cql.

(** A [boost::function] slot: [None] is the empty function (constructed
    from [0]), [Some f] holds the target [f]. *)
Abbreviation callback := (option positive) (only parsing).

Record cql_session_callback_info_t := mk_callback_info {
  _client_callback : callback;
  _ready_callback : callback;
  _defunct_callback : callback;
  _log_callback : callback
}.

(** The constructor; every argument defaults to [0]. *)
Definition cql_session_callback_info_new (client ready defunct log : callback)
    : cql_session_callback_info_t :=
  mk_callback_info client ready defunct log.

Definition cql_session_callback_info_default : cql_session_callback_info_t :=
  cql_session_callback_info_new None None None None.

Definition set_client_callback (client_callback : callback)
    (this : cql_session_callback_info_t) : cql_session_callback_info_t :=
  mk_callback_info client_callback (_ready_callback this) (_defunct_callback this)
                   (_log_callback this).

Definition set_ready_callback (ready_callback : callback)
    (this : cql_session_callback_info_t) : cql_session_callback_info_t :=
  mk_callback_info (_client_callback this) ready_callback (_defunct_callback this)
                   (_log_callback this).

Definition set_defunct_callback (defunct_callback : callback)
    (this : cql_session_callback_info_t) : cql_session_callback_info_t :=
  mk_callback_info (_client_callback this) (_ready_callback this) defunct_callback
                   (_log_callback this).

Definition set_log_callback (log_callback : callback)
    (this : cql_session_callback_info_t) : cql_session_callback_info_t :=
  mk_callback_info (_client_callback this) (_ready_callback this) (_defunct_callback this)
                   log_callback.

Definition client_callback (this : cql_session_callback_info_t) : callback :=
  _client_callback this.

Definition ready_callback (this : cql_session_callback_info_t) : callback :=
  _ready_callback this.

Definition defunct_callback (this : cql_session_callback_info_t) : callback :=
  _defunct_callback this.

Definition log_callback (this : cql_session_callback_info_t) : callback :=
  _log_callback this.

(** One call of a setter, and a sequence of such calls on an object. *)
Inductive setter_call :=
  | call_set_client (f : callback)
  | call_set_ready (f : callback)
  | call_set_defunct (f : callback)
  | call_set_log (f : callback).

Definition apply_setter (this : cql_session_callback_info_t) (c : setter_call)
    : cql_session_callback_info_t :=
  match c with
  | call_set_client f => set_client_callback f this
  | call_set_ready f => set_ready_callback f this
  | call_set_defunct f => set_defunct_callback f this
  | call_set_log f => set_log_callback f this
  end.

Definition apply_setters (cs : list setter_call) (this : cql_session_callback_info_t)
    : cql_session_callback_info_t :=
  foldl apply_setter this cs.

(** The argument of the last call to each setter in [cs], if there is one. *)
Definition client_arg (c : setter_call) : option callback :=
  match c with call_set_client f => Some f | _ => None end.

Definition ready_arg (c : setter_call) : option callback :=
  match c with call_set_ready f => Some f | _ => None end.

Definition defunct_arg (c : setter_call) : option callback :=
  match c with call_set_defunct f => Some f | _ => None end.

Definition log_arg (c : setter_call) : option callback :=
  match c with call_set_log f => Some f | _ => None end.

End cql.

(** * The connection pool manager of the driver (namespace [cass])

    A shallow embedding of [ConnectionPoolManager] (connection_pool_manager.cpp):
    the manager object, the heap of pool and connector objects it points
    into, and the record of every call the manager makes on its
    collaborators (listener, pools, connectors). *)

Module cass.

(** ** Data model *)

(** Modelled from the spec: [Address] (address.hpp is not in this module):
    (IP, port), compared on both fields. *)
Record Address := mkAddress { addr_ip : N; addr_port : N }.

#[global] Instance Address_eq_dec : EqDecision Address.
Proof. solve_decision. Defined.

#[global] Instance Address_countable : Countable Address :=
  inj_countable' (λ a, (addr_ip a, addr_port a)) (λ p, mkAddress p.1 p.2)
                 (λ a, match a with mkAddress _ _ => eq_refl end).

(** Object identities.  A [ConnectionPool*] / [ConnectionPool::Ptr] and a
    [ConnectionPoolConnector*] / [::Ptr] are keys into the two heaps of
    [World]; a [Connector::ConnectionError] (enum declared outside this
    module) is taken as its numeric value. *)
Abbreviation PoolPtr := positive (only parsing).
Abbreviation ConnectorPtr := positive (only parsing).
Abbreviation ConnectionError := N (only parsing).

(** Modelled from the spec: [PooledConnection] (class not in this module);
    the attributes [find_least_busy] consults. *)
Record PooledConnection := mkPooledConnection {
  conn_id : N;
  in_flight_count : N;
  max_streams : N
}.

#[global] Instance PooledConnection_eq_dec : EqDecision PooledConnection.
Proof. solve_decision. Defined.

(** Modelled from the spec: the states of a [ConnectionPool]. *)
Inductive PoolState := growing | ready | reconnecting | closing | closed.

#[global] Instance PoolState_eq_dec : EqDecision PoolState.
Proof. solve_decision. Defined.

(** Modelled from the spec: [ConnectionPool] (class not in this module):
    the host it services, its state and its live connections. *)
Record ConnectionPool := mkConnectionPool {
  pool_address : Address;
  pool_state : PoolState;
  connections : list PooledConnection
}.

(** Modelled from the spec: what a [ConnectionPoolConnector] reports when it
    completes: a ready pool if at least one connection succeeded, else the
    first error code and message. *)
Inductive ConnectorOutcome :=
  | pool_ready (pool : PoolPtr)
  | critical_failure (code : ConnectionError) (message : string).

(** Modelled from the spec: [ConnectionPoolConnector] (class not in this
    module): one-shot, with a [cancel()] that moves it to cancelled. *)
Record ConnectionPoolConnector := mkConnectionPoolConnector {
  connector_address : Address;
  connector_connecting : bool;
  connector_cancelled : bool;
  connector_outcome : option ConnectorOutcome
}.

(** A listener object: the file-static no-op listener or one supplied by
    the user.  A [ConnectionPoolManagerListener*] is [option Listener],
    [None] being the null pointer. *)
Inductive Listener :=
  | nop_connection_pool_manager_listener__
  | user_listener (id : positive).

#[global] Instance Listener_eq_dec : EqDecision Listener.
Proof. solve_decision. Defined.

Inductive CloseState := CLOSE_STATE_OPEN | CLOSE_STATE_CLOSING | CLOSE_STATE_CLOSED.

#[global] Instance CloseState_eq_dec : EqDecision CloseState.
Proof. solve_decision. Defined.

(** Modelled from the spec: [Config] (class not in this module): the
    getters the settings read. *)
Record Config := mkConfig {
  core_connections_per_host : N;
  config_reconnect_wait_time_ms : N;
  config_queue_size_io : N
}.

Record ConnectionPoolManagerSettings := mkSettings {
  connection_settings : Config;
  num_connections_per_host : N;
  reconnect_wait_time_ms : N;
  queue_size_io : N
}.

(** [ConnectionPoolManagerSettings::ConnectionPoolManagerSettings(const Config&)] *)
Definition ConnectionPoolManagerSettings_of (config : Config) : ConnectionPoolManagerSettings :=
  {| connection_settings := config;
     num_connections_per_host := core_connections_per_host config;
     reconnect_wait_time_ms := config_reconnect_wait_time_ms config;
     queue_size_io := config_queue_size_io config |}.

(** The fields of a [ConnectionPoolManager].  [keyspace_mutex_] is [true]
    while the mutex is held; [ref_count_] is the counter of the
    [RefCounted] base, [0] once the object has been deleted. *)
Record ConnectionPoolManager := mkManager {
  loop_ : N;
  protocol_version_ : Z;
  listener_ : option Listener;
  settings_ : ConnectionPoolManagerSettings;
  close_state_ : CloseState;
  pools_ : gmap Address positive;
  pending_pools_ : list positive;
  to_flush_ : gset positive;
  keyspace_mutex_ : bool;
  keyspace_ : string;
  metrics_ : N;
  ref_count_ : nat
}.

(** The four callbacks of [ConnectionPoolManagerListener]. *)
Inductive ListenerCallback :=
  | on_pool_up (address : Address)
  | on_pool_down (address : Address)
  | on_pool_critical_error (address : Address) (code : ConnectionError) (message : string)
  | on_close.

#[global] Instance ListenerCallback_eq_dec : EqDecision ListenerCallback.
Proof. solve_decision. Defined.

(** Every call the manager makes on another object, in the order made. *)
Inductive Call :=
  | listener_call (l : Listener) (cb : ListenerCallback)
  | pool_close (p : PoolPtr)
  | pool_flush (p : PoolPtr)
  | connector_connect (c : ConnectorPtr)
  | connector_cancel (c : ConnectorPtr).

#[global] Instance Call_eq_dec : EqDecision Call.
Proof. solve_decision. Defined.

(** The manager, the objects it points to, and the calls made so far
    (oldest first). *)
Record World := mkWorld {
  manager : ConnectionPoolManager;
  pool_heap : gmap positive ConnectionPool;
  connector_heap : gmap positive ConnectionPoolConnector;
  calls : list Call
}.

(** ** State and fault monad *)

(** What stops a method: a call through a null or dangling pointer, a
    connector asked for a result it does not have yet, a mutex already
    held, a method called on a deleted manager. *)
Inductive Fault :=
  | NullListener
  | DanglingPool
  | DanglingConnector
  | UnfinishedConnector
  | MutexHeld
  | UseAfterFree.

Definition M (A : Type) : Type := World → Fault + (A * World).

Definition ret {A} (a : A) : M A := λ w, inr (a, w).

Definition bind {A B} (m : M A) (k : A → M B) : M B :=
  λ w, match m w with
       | inl f => inl f
       | inr (a, w') => k a w'
       end.

Definition fault {A} (f : Fault) : M A := λ _, inl f.

Notation "'do' x <- m ; k" := (bind m (λ x, k))
  (at level 10, x name, m at level 100, k at level 200,
   format "'[v' 'do'  x  <-  m ;  '/' k ']'").
Notation "'do_' m ; k" := (bind m (λ _, k))
  (at level 10, m at level 100, k at level 200,
   format "'[v' 'do_'  m ;  '/' k ']'").

(** Read a field of [this]. *)
Definition get {A} (field : ConnectionPoolManager → A) : M A :=
  λ w, inr (field (manager w), w).

(** Update [this]. *)
Definition modify (f : ConnectionPoolManager → ConnectionPoolManager) : M unit :=
  λ w, inr (tt, mkWorld (f (manager w)) (pool_heap w) (connector_heap w) (calls w)).

Definition record (c : Call) : M unit :=
  λ w, inr (tt, mkWorld (manager w) (pool_heap w) (connector_heap w) (calls w ++ [c])).

Fixpoint for_each {A} (l : list A) (body : A → M unit) : M unit :=
  match l with
  | [] => ret tt
  | x :: r => do_ body x; for_each r body
  end.

(** Field assignments. *)
Definition with_listener (l : option Listener) (m : ConnectionPoolManager) :=
  mkManager (loop_ m) (protocol_version_ m) l (settings_ m) (close_state_ m)
            (pools_ m) (pending_pools_ m) (to_flush_ m) (keyspace_mutex_ m)
            (keyspace_ m) (metrics_ m) (ref_count_ m).

Definition with_close_state (s : CloseState) (m : ConnectionPoolManager) :=
  mkManager (loop_ m) (protocol_version_ m) (listener_ m) (settings_ m) s
            (pools_ m) (pending_pools_ m) (to_flush_ m) (keyspace_mutex_ m)
            (keyspace_ m) (metrics_ m) (ref_count_ m).

Definition with_pools (ps : gmap Address positive) (m : ConnectionPoolManager) :=
  mkManager (loop_ m) (protocol_version_ m) (listener_ m) (settings_ m) (close_state_ m)
            ps (pending_pools_ m) (to_flush_ m) (keyspace_mutex_ m)
            (keyspace_ m) (metrics_ m) (ref_count_ m).

Definition with_pending_pools (cs : list positive) (m : ConnectionPoolManager) :=
  mkManager (loop_ m) (protocol_version_ m) (listener_ m) (settings_ m) (close_state_ m)
            (pools_ m) cs (to_flush_ m) (keyspace_mutex_ m)
            (keyspace_ m) (metrics_ m) (ref_count_ m).

Definition with_to_flush (fs : gset positive) (m : ConnectionPoolManager) :=
  mkManager (loop_ m) (protocol_version_ m) (listener_ m) (settings_ m) (close_state_ m)
            (pools_ m) (pending_pools_ m) fs (keyspace_mutex_ m)
            (keyspace_ m) (metrics_ m) (ref_count_ m).

Definition with_keyspace_mutex (b : bool) (m : ConnectionPoolManager) :=
  mkManager (loop_ m) (protocol_version_ m) (listener_ m) (settings_ m) (close_state_ m)
            (pools_ m) (pending_pools_ m) (to_flush_ m) b
            (keyspace_ m) (metrics_ m) (ref_count_ m).

Definition with_keyspace (k : string) (m : ConnectionPoolManager) :=
  mkManager (loop_ m) (protocol_version_ m) (listener_ m) (settings_ m) (close_state_ m)
            (pools_ m) (pending_pools_ m) (to_flush_ m) (keyspace_mutex_ m)
            k (metrics_ m) (ref_count_ m).

Definition with_ref_count (n : nat) (m : ConnectionPoolManager) :=
  mkManager (loop_ m) (protocol_version_ m) (listener_ m) (settings_ m) (close_state_ m)
            (pools_ m) (pending_pools_ m) (to_flush_ m) (keyspace_mutex_ m)
            (keyspace_ m) (metrics_ m) n.

(** ** Collaborators *)

Definition the_pool (p : PoolPtr) : M ConnectionPool :=
  λ w, match pool_heap w !! p with
       | Some obj => inr (obj, w)
       | None => inl DanglingPool
       end.

Definition the_connector (c : ConnectorPtr) : M ConnectionPoolConnector :=
  λ w, match connector_heap w !! c with
       | Some obj => inr (obj, w)
       | None => inl DanglingConnector
       end.

Definition store_pool (p : PoolPtr) (obj : ConnectionPool) : M unit :=
  λ w, inr (tt, mkWorld (manager w) (<[p := obj]> (pool_heap w)) (connector_heap w) (calls w)).

Definition store_connector (c : ConnectorPtr) (obj : ConnectionPoolConnector) : M unit :=
  λ w, inr (tt, mkWorld (manager w) (pool_heap w) (<[c := obj]> (connector_heap w)) (calls w)).

(** A virtual call through [listener_]. *)
Definition listener_do (cb : ListenerCallback) : M unit :=
  do l <- get listener_;
  match l with
  | Some target => record (listener_call target cb)
  | None => fault NullListener
  end.

(** Modelled from the spec: [ConnectionPool::address()]. *)
Definition ConnectionPool_address (p : PoolPtr) : M Address :=
  do obj <- the_pool p;
  ret (pool_address obj).

Definition has_free_stream (c : PooledConnection) : bool :=
  (in_flight_count c <? max_streams c)%N.

(** [c] is strictly less busy than [d]: fewer streams in flight, ties
    broken by the lower connection id. *)
Definition less_busy (c d : PooledConnection) : bool :=
  (in_flight_count c <? in_flight_count d)%N
  || ((in_flight_count c =? in_flight_count d)%N && (conn_id c <? conn_id d)%N).

Fixpoint least_busy_of (cs : list PooledConnection) : option PooledConnection :=
  match cs with
  | [] => None
  | c :: r =>
      match least_busy_of r with
      | Some d => if less_busy d c then Some d else Some c
      | None => Some c
      end
  end.

(** Modelled from the spec: [ConnectionPool::find_least_busy()]: the live
    connection with the lowest in-flight count among those with a free
    stream id; none if the pool is empty, saturated, or has been closed. *)
Definition ConnectionPool_find_least_busy (p : PoolPtr) : M (option PooledConnection) :=
  do obj <- the_pool p;
  match pool_state obj with
  | closing | closed => ret None
  | _ => ret (least_busy_of (filter (λ c, has_free_stream c = true) (connections obj)))
  end.

(** Modelled from the spec: [ConnectionPool::close()]: starts the graceful
    close; the pool reports back through [notify_closed] when it is done. *)
Definition ConnectionPool_closing (obj : ConnectionPool) : ConnectionPool :=
  match pool_state obj with
  | closed => obj
  | _ => mkConnectionPool (pool_address obj) closing (connections obj)
  end.

Definition ConnectionPool_close (p : PoolPtr) : M unit :=
  do obj <- the_pool p;
  do_ record (pool_close p);
  store_pool p (ConnectionPool_closing obj).

(** Modelled from the spec: [ConnectionPool::flush()]: the batched
    write-out of each connection; nothing the manager reads changes. *)
Definition ConnectionPool_flush (p : PoolPtr) : M unit :=
  do_ the_pool p;
  record (pool_flush p).

(** Modelled from the spec: [ConnectionPoolConnector::address()]. *)
Definition ConnectionPoolConnector_address (c : ConnectorPtr) : M Address :=
  do obj <- the_connector c;
  ret (connector_address obj).

(** Modelled from the spec: [ConnectionPoolConnector::connect()]. *)
Definition ConnectionPoolConnector_connect (c : ConnectorPtr) : M unit :=
  do obj <- the_connector c;
  do_ record (connector_connect c);
  store_connector c (mkConnectionPoolConnector (connector_address obj) true
                       (connector_cancelled obj) (connector_outcome obj)).

(** Modelled from the spec: [ConnectionPoolConnector::cancel()]. *)
Definition ConnectionPoolConnector_cancelled (obj : ConnectionPoolConnector) :=
  mkConnectionPoolConnector (connector_address obj) (connector_connecting obj) true
                            (connector_outcome obj).

Definition ConnectionPoolConnector_cancel (c : ConnectorPtr) : M unit :=
  do obj <- the_connector c;
  do_ record (connector_cancel c);
  store_connector c (ConnectionPoolConnector_cancelled obj).

(** Modelled from the spec: what a completed connector answers. *)
Definition ConnectionPoolConnector_outcome (c : ConnectorPtr) : M ConnectorOutcome :=
  do obj <- the_connector c;
  match connector_outcome obj with
  | Some o => ret o
  | None => fault UnfinishedConnector
  end.

(** [Memory::allocate<ConnectionPoolConnector>(this, address, this, on_connect)]:
    a new object at an address not in use (allocated.cpp routes [new] to
    [Memory::malloc]). *)
Definition allocate_connector (address : Address) : M ConnectorPtr :=
  λ w, let c := fresh (dom (connector_heap w)) in
       inr (c, mkWorld (manager w) (pool_heap w)
                 (<[c := mkConnectionPoolConnector address false false None]> (connector_heap w))
                 (calls w)).

(** Modelled from the spec: [RefCounted::inc_ref()] and [dec_ref()]; the
    object is deleted when the count drops to zero. *)
Definition inc_ref : M unit :=
  modify (λ m, with_ref_count (S (ref_count_ m)) m).

Definition dec_ref : M unit :=
  modify (λ m, with_ref_count (pred (ref_count_ m)) m).

(** Modelled from the spec: [ScopedMutex l(&keyspace_mutex_)]
    (scoped_lock.hpp is not in this module): [uv_mutex_lock] on entry,
    [uv_mutex_unlock] when the scope is left; a second lock on a held mutex
    does not return. *)
Definition uv_mutex_lock : M unit :=
  do held <- get keyspace_mutex_;
  if held : bool then fault MutexHeld else modify (with_keyspace_mutex true).

Definition uv_mutex_unlock : M unit :=
  modify (with_keyspace_mutex false).

Definition ScopedMutex {A} (body : M A) : M A :=
  do_ uv_mutex_lock;
  do r <- body;
  do_ uv_mutex_unlock;
  ret r.

Definition allocate_pool (obj : ConnectionPool) : M PoolPtr :=
  λ w, let p := fresh (dom (pool_heap w)) in
       inr (p, mkWorld (manager w) (<[p := obj]> (pool_heap w)) (connector_heap w) (calls w)).

(** Modelled from the spec: [is_ok()], [release_pool()], [error_code()]
    and [error_message()] of a completed connector. *)
Definition is_ok (c : ConnectorPtr) : M bool :=
  do o <- ConnectionPoolConnector_outcome c;
  ret (match o with pool_ready _ => true | critical_failure _ _ => false end).

Definition release_pool (c : ConnectorPtr) : M PoolPtr :=
  do o <- ConnectionPoolConnector_outcome c;
  match o with
  | pool_ready p => ret p
  | critical_failure _ _ => fault UnfinishedConnector
  end.

Definition error_code (c : ConnectorPtr) : M ConnectionError :=
  do o <- ConnectionPoolConnector_outcome c;
  match o with
  | critical_failure code _ => ret code
  | pool_ready _ => fault UnfinishedConnector
  end.

Definition error_message (c : ConnectorPtr) : M string :=
  do o <- ConnectionPoolConnector_outcome c;
  match o with
  | critical_failure _ message => ret message
  | pool_ready _ => fault UnfinishedConnector
  end.

(** ** The manager *)

(** [ConnectionPoolManager::ConnectionPoolManager]: the object after the
    constructor body ([inc_ref()] from zero, mutex initialised, both
    containers empty). *)
Definition ConnectionPoolManager_new (loop : N) (protocol_version : Z) (keyspace : string)
    (metrics : N) (settings : ConnectionPoolManagerSettings) : ConnectionPoolManager :=
  {| loop_ := loop;
     protocol_version_ := protocol_version;
     listener_ := Some nop_connection_pool_manager_listener__;
     settings_ := settings;
     close_state_ := CLOSE_STATE_OPEN;
     pools_ := ∅;
     pending_pools_ := [];
     to_flush_ := ∅;
     keyspace_mutex_ := false;
     keyspace_ := keyspace;
     metrics_ := metrics;
     ref_count_ := 1 |}.

Definition find_least_busy (address : Address) : M (option PooledConnection) :=
  do ps <- get pools_;
  match ps !! address with
  | None => ret None
  | Some it => ConnectionPool_find_least_busy it
  end.

Definition flush : M unit :=
  do fs <- get to_flush_;
  do_ for_each (elements fs) ConnectionPool_flush;
  modify (with_to_flush ∅).

Definition available : M (list Address) :=
  do ps <- get pools_;
  ret ((map_to_list ps).*1).

(** The loop of [add] over [pending_pools_], leaving at the first
    connector for [address]. *)
Fixpoint pending_for (cs : list ConnectorPtr) (address : Address) : M bool :=
  match cs with
  | [] => ret false
  | it :: r =>
      do a <- ConnectionPoolConnector_address it;
      if decide (a = address) then ret true else pending_for r address
  end.

Definition add (address : Address) : M unit :=
  do ps <- get pools_;
  match ps !! address with
  | Some _ => ret tt
  | None =>
      do cs <- get pending_pools_;
      do found <- pending_for cs address;
      if found : bool then ret tt
      else
        do connector <- allocate_connector address;
        do_ modify (λ m, with_pending_pools (pending_pools_ m ++ [connector]) m);
        ConnectionPoolConnector_connect connector
  end.

Definition remove (address : Address) : M unit :=
  do ps <- get pools_;
  match ps !! address with
  | None => ret tt
  | Some it => ConnectionPool_close it
  end.

(** This must be the last call in a function because it can potentially
    deallocate the manager. *)
Definition maybe_closed : M unit :=
  do s <- get close_state_;
  do ps <- get pools_;
  if decide (s = CLOSE_STATE_CLOSING ∧ ps = ∅) then
    do_ modify (with_close_state CLOSE_STATE_CLOSED);
    do_ listener_do on_close;
    dec_ref
  else ret tt.

Definition close : M unit :=
  do s <- get close_state_;
  do_ (if decide (s = CLOSE_STATE_OPEN) then
         do_ modify (with_close_state CLOSE_STATE_CLOSING);
         do ps <- get pools_;
         do_ for_each (map_to_list ps) (λ it, ConnectionPool_close it.2);
         do cs <- get pending_pools_;
         for_each cs ConnectionPoolConnector_cancel
       else ret tt);
  maybe_closed.

Definition set_listener (listener : option Listener) : M unit :=
  modify (with_listener (match listener with
                         | Some l => Some l
                         | None => Some nop_connection_pool_manager_listener__
                         end)).

Definition keyspace : M string :=
  ScopedMutex (get keyspace_).

Definition set_keyspace (keyspace : string) : M unit :=
  ScopedMutex (modify (with_keyspace keyspace)).

(** The [LOG_DEBUG] line has no effect on the state. *)
Definition internal_add_pool (pool : PoolPtr) : M unit :=
  do a <- ConnectionPool_address pool;
  modify (λ m, with_pools (<[a := pool]> (pools_ m)) m).

Definition add_pool (pool : PoolPtr) : M unit :=
  internal_add_pool pool.

Definition notify_closed (pool : PoolPtr) (should_notify_down : bool) : M unit :=
  do a <- ConnectionPool_address pool;
  do_ modify (λ m, with_pools (delete a (pools_ m)) m);
  do_ modify (λ m, with_to_flush (to_flush_ m ∖ {[pool]}) m);
  do l <- get listener_;
  do_ (if should_notify_down && bool_decide (l ≠ None) then
         do a' <- ConnectionPool_address pool;
         listener_do (on_pool_down a')
       else ret tt);
  maybe_closed.

Definition notify_up (pool : PoolPtr) : M unit :=
  do a <- ConnectionPool_address pool;
  listener_do (on_pool_up a).

Definition notify_down (pool : PoolPtr) : M unit :=
  do a <- ConnectionPool_address pool;
  listener_do (on_pool_down a).

Definition notify_critical_error (pool : PoolPtr) (code : ConnectionError)
    (message : string) : M unit :=
  do a <- ConnectionPool_address pool;
  listener_do (on_pool_critical_error a code message).

Definition requires_flush (pool : PoolPtr) : M unit :=
  modify (λ m, with_to_flush ({[pool]} ∪ to_flush_ m) m).

Definition handle_connect (pool_connector : ConnectorPtr) : M unit :=
  do_ modify (λ m, with_pending_pools
                     (filter (λ c, c ≠ pool_connector) (pending_pools_ m)) m);
  do ok <- is_ok pool_connector;
  if ok : bool then
    do p <- release_pool pool_connector;
    internal_add_pool p
  else
    do a <- ConnectionPoolConnector_address pool_connector;
    do code <- error_code pool_connector;
    do message <- error_message pool_connector;
    listener_do (on_pool_critical_error a code message).

(** [pool_connector->data()] is the manager that created the connector. *)
Definition on_connect (pool_connector : ConnectorPtr) : M unit :=
  handle_connect pool_connector.

(** ** Runs *)

(** What the transport reports to a connector: the connections that came
    up, or the first error when none did. *)
Inductive ConnectResult :=
  | connected (conns : list PooledConnection)
  | refused (code : ConnectionError) (message : string).

(** Modelled from the spec: a connector completes: on success it has built
    a ready pool for its own address; it stores the outcome and invokes its
    callback, [on_connect]. *)
Definition ConnectionPoolConnector_complete (c : ConnectorPtr) (r : ConnectResult) : M unit :=
  do obj <- the_connector c;
  do o <- match r with
          | connected conns =>
              do p <- allocate_pool (mkConnectionPool (connector_address obj) ready conns);
              ret (pool_ready p)
          | refused code message => ret (critical_failure code message)
          end;
  do_ store_connector c (mkConnectionPoolConnector (connector_address obj)
                           (connector_connecting obj) (connector_cancelled obj) (Some o));
  on_connect c.

(** The entry points: the public interface, the reference count, the
    protected interface the pools call upward, and the two things that
    happen outside the manager (a connector completes, a pool object is
    built by the initializer). *)
Inductive Event :=
  | ev_find_least_busy (address : Address)
  | ev_flush
  | ev_available
  | ev_add (address : Address)
  | ev_remove (address : Address)
  | ev_close
  | ev_set_listener (listener : option Listener)
  | ev_keyspace
  | ev_set_keyspace (keyspace : string)
  | ev_inc_ref
  | ev_dec_ref
  | ev_add_pool (pool : PoolPtr)
  | ev_notify_closed (pool : PoolPtr) (should_notify_down : bool)
  | ev_notify_up (pool : PoolPtr)
  | ev_notify_down (pool : PoolPtr)
  | ev_notify_critical_error (pool : PoolPtr) (code : ConnectionError) (message : string)
  | ev_requires_flush (pool : PoolPtr)
  | ev_connector_done (c : ConnectorPtr) (r : ConnectResult)
  | ev_pool_built (obj : ConnectionPool).

(** A method runs on a live object only. *)
Definition alive : M unit :=
  do n <- get ref_count_;
  match n with
  | O => fault UseAfterFree
  | S _ => ret tt
  end.

Definition method {A} (body : M A) : M unit :=
  do_ alive;
  do_ body;
  ret tt.

Definition step (ev : Event) : M unit :=
  match ev with
  | ev_find_least_busy a => method (find_least_busy a)
  | ev_flush => method flush
  | ev_available => method available
  | ev_add a => method (add a)
  | ev_remove a => method (remove a)
  | ev_close => method close
  | ev_set_listener l => method (set_listener l)
  | ev_keyspace => method keyspace
  | ev_set_keyspace k => method (set_keyspace k)
  | ev_inc_ref => method inc_ref
  | ev_dec_ref => method dec_ref
  | ev_add_pool p => method (add_pool p)
  | ev_notify_closed p b => method (notify_closed p b)
  | ev_notify_up p => method (notify_up p)
  | ev_notify_down p => method (notify_down p)
  | ev_notify_critical_error p code message => method (notify_critical_error p code message)
  | ev_requires_flush p => method (requires_flush p)
  | ev_connector_done c r => method (ConnectionPoolConnector_complete c r)
  | ev_pool_built obj => do_ allocate_pool obj; ret tt
  end.

Fixpoint run (evs : list Event) : M unit :=
  match evs with
  | [] => ret tt
  | ev :: r => do_ step ev; run r
  end.

(** The world right after construction. *)
Definition boot (loop : N) (protocol_version : Z) (keyspace : string) (metrics : N)
    (settings : ConnectionPoolManagerSettings) : World :=
  mkWorld (ConnectionPoolManager_new loop protocol_version keyspace metrics settings) ∅ ∅ [].

(** ** Observations on a world *)

(** The listener callbacks among the calls, oldest first. *)
Definition callback_of (c : Call) : option ListenerCallback :=
  match c with
  | listener_call _ cb => Some cb
  | _ => None
  end.

Definition callbacks (cs : list Call) : list ListenerCallback :=
  omap callback_of cs.

Definition count_on_close (cs : list Call) : nat :=
  length (filter (λ cb, cb = on_close) (callbacks cs)).

(** The address a connector pointer or a pool pointer leads to, if it
    leads anywhere. *)
Definition connector_address_in (h : gmap positive ConnectionPoolConnector)
    (c : ConnectorPtr) : option Address :=
  connector_address <$> h !! c.

Definition pool_address_in (h : gmap positive ConnectionPool) (p : PoolPtr) : option Address :=
  pool_address <$> h !! p.

Definition connector_at (w : World) (c : ConnectorPtr) : option Address :=
  connector_address_in (connector_heap w) c.

Definition pool_at (w : World) (p : PoolPtr) : option Address :=
  pool_address_in (pool_heap w) p.

(** How many pending connectors are for [address]. *)
Definition pending_count (w : World) (address : Address) : nat :=
  length (filter (λ c, connector_at w c = Some address) (pending_pools_ (manager w))).

Definition close_state_le (s t : CloseState) : Prop :=
  match s, t with
  | CLOSE_STATE_OPEN, _ => True
  | CLOSE_STATE_CLOSING, (CLOSE_STATE_CLOSING | CLOSE_STATE_CLOSED) => True
  | CLOSE_STATE_CLOSED, CLOSE_STATE_CLOSED => True
  | _, _ => False
  end.

(** The world a run ends in ([w] itself if the run faults). *)
Definition world_after (evs : list Event) (w : World) : World :=
  match run evs w with
  | inr (_, w') => w'
  | inl _ => w
  end.

(** ** Derived notions used in the statements *)

(** The pool heap after [close()] on each of [ps], the connector heap after
    [cancel()] on each of [cs]. *)
Definition close_all (ps : list positive) (h : gmap positive ConnectionPool) :=
  foldl (λ h p, alter ConnectionPool_closing p h) h ps.

Definition cancel_all (cs : list positive) (h : gmap positive ConnectionPoolConnector) :=
  foldl (λ h c, alter ConnectionPoolConnector_cancelled c h) h cs.

(** Every registered pool sits under its own address. *)
Definition pools_ok (ps : gmap Address positive) (h : gmap positive ConnectionPool) : Prop :=
  ∀ a p, ps !! a = Some p → pool_address_in h p = Some a.

(** The pending connectors exist and are for pairwise distinct addresses. *)
Definition pending_ok (cs : list positive) (h : gmap positive ConnectionPoolConnector) : Prop :=
  Forall (λ c, is_Some (h !! c)) cs ∧ NoDup (connector_address_in h <$> cs).

(** What holds of the world after any run: the listener is set, the mutex
    is free between calls, the two conditions above, a closing manager
    still has a pool to wait for, and [on_close] has been delivered once
    exactly when the state is closed. *)
Record WF (w : World) : Prop := mkWF {
  wf_listener : listener_ (manager w) ≠ None;
  wf_mutex : keyspace_mutex_ (manager w) = false;
  wf_pools : pools_ok (pools_ (manager w)) (pool_heap w);
  wf_pending : pending_ok (pending_pools_ (manager w)) (connector_heap w);
  wf_closing : close_state_ (manager w) = CLOSE_STATE_CLOSING → pools_ (manager w) ≠ ∅;
  wf_on_close :
    count_on_close (calls w) =
    if decide (close_state_ (manager w) = CLOSE_STATE_CLOSED) then 1 else 0
}.

(** ** Concrete inputs used in the examples *)

(** 10.0.0.1:9042 and 10.0.0.2:9042. *)
Definition host1 : Address := mkAddress 167772161 9042.
Definition host2 : Address := mkAddress 167772162 9042.

Definition example_settings : ConnectionPoolManagerSettings :=
  ConnectionPoolManagerSettings_of (mkConfig 2 2000 8192).

Definition fresh_manager : World := boot 0 4 "ks" 0 example_settings.

Definition idle_connection : PooledConnection := mkPooledConnection 1 0 128.

(** A connector for [host1] is pending and the initializer has built a
    pool object for the same address. *)
Definition pending_and_built : World :=
  world_after [ev_add host1; ev_pool_built (mkConnectionPool host1 ready [idle_connection])]
    fresh_manager.

(** The pool for [host1] is up. *)
Definition pool_up : World :=
  world_after [ev_add host1; ev_connector_done 1 (connected [idle_connection])] fresh_manager.

(** The pool for [host1] came up and was then removed. *)
Definition pool_removed : World :=
  world_after [ev_add host1; ev_connector_done 1 (connected [idle_connection]);
               ev_remove host1] fresh_manager.

(** A connector for [host2] is pending. *)
Definition connecting_host2 : World := world_after [ev_add host2] fresh_manager.

(** The pool for [host1] is up and a connector for [host2] is pending. *)
Definition pool_up_and_connecting : World :=
  world_after [ev_add host1; ev_connector_done 1 (connected [idle_connection]);
               ev_add host2] fresh_manager.


(** A new manager on which the user has installed a listener. *)
Definition listening : World :=
  world_after [ev_set_listener (Some (user_listener 1))] fresh_manager.

(** The life of one pool: connect, up, [close()], closed. *)
Definition one_pool_life : list Event :=
  [ev_add host1; ev_connector_done 1 (connected [idle_connection]); ev_notify_up 1;
   ev_close; ev_notify_closed 1 true].

(** The manager is closed and its owner still holds a reference. *)
Definition closed_manager : World := world_after [ev_inc_ref; ev_close] fresh_manager.

(** The pool for [host1] is up and a second pool object for [host1] has
    been registered in its place. *)
Definition pool_replaced : World :=
  world_after [ev_add host1; ev_connector_done 1 (connected [idle_connection]);
               ev_pool_built (mkConnectionPool host1 ready []); ev_add_pool 2] fresh_manager.

(** ** Conditions on runs *)


(** [c] is pending and has not been cancelled. *)
Definition in_flight (w : World) (c : ConnectorPtr) : bool :=
  bool_decide (c ∈ pending_pools_ (manager w))
  && match connector_heap w !! c with
     | Some obj => negb (connector_cancelled obj)
     | None => false
     end.



(** A run in which a connector completes only while pending, and
    [add_pool] is given a pool for an address without a pending connector. *)
Definition orderly (w : World) (ev : Event) : bool :=
  match ev with
  | ev_add_pool p =>
      match pool_at w p with
      | Some a => bool_decide (Some a ∉ connector_at w <$> pending_pools_ (manager w))
      | None => true
      end
  | ev_connector_done c _ => bool_decide (c ∈ pending_pools_ (manager w))
  | _ => true
  end.

(** Every event of the run satisfies [rule] in the world it is fired in. *)
Fixpoint run_obeys (rule : World → Event → bool) (evs : list Event) (w : World) : bool :=
  match evs with
  | [] => true
  | ev :: r =>
      rule w ev
      && match step ev w with
         | inr (_, w') => run_obeys rule r w'
         | inl _ => true
         end
  end.

(** No address has both a pool and a pending connector. *)
Definition disjoint_in (ps : gmap Address positive) (cs : list positive)
    (h : gmap positive ConnectionPoolConnector) : Prop :=
  ∀ a, is_Some (ps !! a) → Some a ∉ connector_address_in h <$> cs.

Definition disjoint (w : World) : Prop :=
  disjoint_in (pools_ (manager w)) (pending_pools_ (manager w)) (connector_heap w).




(** ** What a run leaves, read off its events *)

(** The flush set: [requires_flush] adds a pool, [notify_closed] takes it
    out, [flush] empties the set. *)
Definition flush_set_after (evs : list Event) (s : gset positive) : gset positive :=
  foldl (λ s ev, match ev with
                 | ev_requires_flush p => {[p]} ∪ s
                 | ev_notify_closed p _ => s ∖ {[p]}
                 | ev_flush => ∅
                 | _ => s
                 end) s evs.


Fixpoint count_events (f : Event → bool) (evs : list Event) : nat :=
  match evs with
  | [] => 0
  | ev :: r => (if f ev then 1 else 0) + count_events f r
  end.

Definition is_inc_ref (ev : Event) : bool :=
  match ev with ev_inc_ref => true | _ => false end.

Definition is_dec_ref (ev : Event) : bool :=
  match ev with ev_dec_ref => true | _ => false end.

(** The methods of the public interface that take no pool or connector
    pointer from the caller. *)
Definition is_user_call (ev : Event) : bool :=
  match ev with
  | ev_find_least_busy _ | ev_available | ev_add _ | ev_remove _ | ev_close
  | ev_set_listener _ | ev_keyspace | ev_set_keyspace _ => true
  | _ => false
  end.

(** The target of every listener call in [cs] is [l]. *)
Definition delivered_to (l : Listener) (cs : list Call) : Prop :=
  ∀ target cb, listener_call target cb ∈ cs → target = l.

(** ** Reasoning about monadic code *)

Lemma bind_inr {A B} (m : M A) (k : A → M B) w b w' :
  bind m k w = inr (b, w') → ∃ a w1, m w = inr (a, w1) ∧ k a w1 = inr (b, w').
Proof.
  unfold bind. destruct (m w) as [f | [a w1]]; [discriminate | eauto].
Qed.

Lemma bind_eq {A B} (m : M A) (k : A → M B) w a w1 :
  m w = inr (a, w1) → bind m k w = k a w1.
Proof. unfold bind. by intros ->. Qed.

Lemma the_pool_inr p w obj w' :
  the_pool p w = inr (obj, w') → pool_heap w !! p = Some obj ∧ w' = w.
Proof. unfold the_pool. destruct (pool_heap w !! p); naive_solver. Qed.

Lemma the_connector_inr c w obj w' :
  the_connector c w = inr (obj, w') → connector_heap w !! c = Some obj ∧ w' = w.
Proof. unfold the_connector. destruct (connector_heap w !! c); naive_solver. Qed.


(** Take every successful computation among the hypotheses apart, one
    bind at a time; loops and [maybe_closed] are left for their own
    lemmas. *)
Ltac minv_prim H :=
  cbn [manager pool_heap connector_heap calls] in H; simplify_eq.

Ltac minv :=
  repeat match goal with
    | H : bind _ _ _ = inr _ |- _ =>
        let H1 := fresh "H" in
        apply bind_inr in H; destruct H as (? & ? & H1 & H); cbv beta in H
    | H : ret _ _ = inr _ |- _ => unfold ret in H; minv_prim H
    | H : get _ _ = inr _ |- _ => unfold get in H; minv_prim H
    | H : modify _ _ = inr _ |- _ => unfold modify in H; minv_prim H
    | H : record _ _ = inr _ |- _ => unfold record in H; minv_prim H
    | H : store_pool _ _ _ = inr _ |- _ => unfold store_pool in H; minv_prim H
    | H : store_connector _ _ _ = inr _ |- _ => unfold store_connector in H; minv_prim H
    | H : allocate_pool _ _ = inr _ |- _ => unfold allocate_pool in H; minv_prim H
    | H : allocate_connector _ _ = inr _ |- _ => unfold allocate_connector in H; minv_prim H
    | H : fault _ _ = inr _ |- _ => discriminate H
    | H : the_pool _ _ = inr _ |- _ =>
        let E := fresh "Hpool" in
        apply the_pool_inr in H; destruct H as [E ->]
    | H : the_connector _ _ = inr _ |- _ =>
        let E := fresh "Hconn" in
        apply the_connector_inr in H; destruct H as [E ->]
    | H : listener_do _ _ = inr _ |- _ => unfold listener_do in H
    | H : inc_ref _ = inr _ |- _ => unfold inc_ref in H
    | H : dec_ref _ = inr _ |- _ => unfold dec_ref in H
    | H : uv_mutex_lock _ = inr _ |- _ => unfold uv_mutex_lock in H
    | H : uv_mutex_unlock _ = inr _ |- _ => unfold uv_mutex_unlock in H
    | H : ScopedMutex _ _ = inr _ |- _ => unfold ScopedMutex in H
    | H : alive _ = inr _ |- _ => unfold alive in H
    | H : method _ _ = inr _ |- _ => unfold method in H
    | H : ConnectionPool_address _ _ = inr _ |- _ => unfold ConnectionPool_address in H
    | H : ConnectionPool_close _ _ = inr _ |- _ => unfold ConnectionPool_close in H
    | H : ConnectionPool_flush _ _ = inr _ |- _ => unfold ConnectionPool_flush in H
    | H : ConnectionPool_find_least_busy _ _ = inr _ |- _ =>
        unfold ConnectionPool_find_least_busy in H
    | H : ConnectionPoolConnector_address _ _ = inr _ |- _ =>
        unfold ConnectionPoolConnector_address in H
    | H : ConnectionPoolConnector_connect _ _ = inr _ |- _ =>
        unfold ConnectionPoolConnector_connect in H
    | H : ConnectionPoolConnector_cancel _ _ = inr _ |- _ =>
        unfold ConnectionPoolConnector_cancel in H
    | H : ConnectionPoolConnector_outcome _ _ = inr _ |- _ =>
        unfold ConnectionPoolConnector_outcome in H
    | H : is_ok _ _ = inr _ |- _ => unfold is_ok in H
    | H : release_pool _ _ = inr _ |- _ => unfold release_pool in H
    | H : error_code _ _ = inr _ |- _ => unfold error_code in H
    | H : error_message _ _ = inr _ |- _ => unfold error_message in H
    | H : internal_add_pool _ _ = inr _ |- _ => unfold internal_add_pool in H
    | H : add_pool _ _ = inr _ |- _ => unfold add_pool in H
    | H : on_connect _ _ = inr _ |- _ => unfold on_connect in H
    | H : handle_connect _ _ = inr _ |- _ => unfold handle_connect in H
    | H : (if ?c then _ else _) _ = inr _ |- _ => destruct c eqn:?
    | H : (match ?x with _ => _ end) _ = inr _ |- _ => destruct x eqn:?
    end.

Lemma for_each_fmap {A B} (g : A → B) (f : B → M unit) (l : list A) :
  for_each l (λ x, f (g x)) = for_each (g <$> l) f.
Proof. induction l as [|x l IH]; simpl; [done | by rewrite IH]. Qed.

Lemma insert_as_alter {V} (f : V → V) (h : gmap positive V) p obj :
  h !! p = Some obj → <[p := f obj]> h = alter f p h.
Proof.
  intros H. apply map_eq. intros q. destruct (decide (p = q)) as [<- | Hne].
  - rewrite lookup_insert_eq, lookup_alter_eq, H. done.
  - rewrite lookup_insert_ne, lookup_alter_ne by done. done.
Qed.

Lemma ConnectionPool_close_eq p w :
  ConnectionPool_close p w =
  match pool_heap w !! p with
  | Some _ => inr (tt, mkWorld (manager w) (alter ConnectionPool_closing p (pool_heap w))
                          (connector_heap w) (calls w ++ [pool_close p]))
  | None => inl DanglingPool
  end.
Proof.
  unfold ConnectionPool_close, bind, the_pool, record, store_pool.
  destruct (pool_heap w !! p) as [obj|] eqn:E; [|done]. simpl.
  by rewrite (insert_as_alter _ _ _ _ E).
Qed.

Lemma for_each_close ps w :
  for_each ps ConnectionPool_close w =
  if decide (Forall (λ p, is_Some (pool_heap w !! p)) ps)
  then inr (tt, mkWorld (manager w) (close_all ps (pool_heap w)) (connector_heap w)
                  (calls w ++ (pool_close <$> ps)))
  else inl DanglingPool.
Proof.
  revert w. induction ps as [|p ps IH]; intros w.
  - simpl. unfold ret. rewrite app_nil_r. destruct w; simpl.
    done.
  - simpl. unfold bind. rewrite ConnectionPool_close_eq.
    destruct (pool_heap w !! p) as [obj|] eqn:E.
    + rewrite IH. cbn [manager pool_heap connector_heap calls].
      assert (Forall (λ q, is_Some (alter ConnectionPool_closing p (pool_heap w) !! q)) ps
              ↔ Forall (λ q, is_Some (pool_heap w !! q)) ps) as Hiff.
      { apply Forall_proper; [|done]. intros q. rewrite lookup_alter_is_Some. done. }
      destruct (decide (Forall (λ q, is_Some (pool_heap w !! q)) ps)) as [Hall|Hnall].
      * rewrite decide_True by (by apply Hiff). rewrite decide_True by (constructor; eauto).
        by rewrite <- app_assoc.
      * rewrite decide_False by (by rewrite Hiff).
        rewrite decide_False; [done|]. intros HF. by inversion HF.
    + rewrite decide_False; [done|]. intros HF. inversion HF as [|?? [? ?]]; simplify_eq.
Qed.

Lemma ConnectionPoolConnector_cancel_eq c w :
  ConnectionPoolConnector_cancel c w =
  match connector_heap w !! c with
  | Some _ => inr (tt, mkWorld (manager w) (pool_heap w)
                          (alter ConnectionPoolConnector_cancelled c (connector_heap w))
                          (calls w ++ [connector_cancel c]))
  | None => inl DanglingConnector
  end.
Proof.
  unfold ConnectionPoolConnector_cancel, bind, the_connector, record, store_connector.
  destruct (connector_heap w !! c) as [obj|] eqn:E; [|done]. simpl.
  by rewrite (insert_as_alter _ _ _ _ E).
Qed.

Lemma for_each_cancel cs w :
  for_each cs ConnectionPoolConnector_cancel w =
  if decide (Forall (λ c, is_Some (connector_heap w !! c)) cs)
  then inr (tt, mkWorld (manager w) (pool_heap w) (cancel_all cs (connector_heap w))
                  (calls w ++ (connector_cancel <$> cs)))
  else inl DanglingConnector.
Proof.
  revert w. induction cs as [|c cs IH]; intros w.
  - simpl. unfold ret. rewrite app_nil_r. by destruct w.
  - simpl. unfold bind. rewrite ConnectionPoolConnector_cancel_eq.
    destruct (connector_heap w !! c) as [obj|] eqn:E.
    + rewrite IH. cbn [manager pool_heap connector_heap calls].
      assert (Forall (λ q, is_Some (alter ConnectionPoolConnector_cancelled c
                                      (connector_heap w) !! q)) cs
              ↔ Forall (λ q, is_Some (connector_heap w !! q)) cs) as Hiff.
      { apply Forall_proper; [|done]. intros q. rewrite lookup_alter_is_Some. done. }
      destruct (decide (Forall (λ q, is_Some (connector_heap w !! q)) cs)) as [Hall|Hnall].
      * rewrite decide_True by (by apply Hiff). rewrite decide_True by (constructor; eauto).
        by rewrite <- app_assoc.
      * rewrite decide_False by (by rewrite Hiff).
        rewrite decide_False; [done|]. intros HF. by inversion HF.
    + rewrite decide_False; [done|]. intros HF. inversion HF as [|?? [? ?]]; simplify_eq.
Qed.

Lemma for_each_flush fs w :
  for_each fs ConnectionPool_flush w =
  if decide (Forall (λ p, is_Some (pool_heap w !! p)) fs)
  then inr (tt, mkWorld (manager w) (pool_heap w) (connector_heap w)
                  (calls w ++ (pool_flush <$> fs)))
  else inl DanglingPool.
Proof.
  revert w. induction fs as [|p fs IH]; intros w.
  - simpl. unfold ret. rewrite app_nil_r. by destruct w.
  - simpl. unfold bind at 1. unfold ConnectionPool_flush at 1. unfold bind, the_pool, record.
    destruct (pool_heap w !! p) as [obj|] eqn:E.
    + rewrite IH. cbn [manager pool_heap connector_heap calls].
      destruct (decide (Forall (λ q, is_Some (pool_heap w !! q)) fs)) as [Hall|Hnall].
      * rewrite decide_True by (constructor; eauto). by rewrite <- app_assoc.
      * rewrite decide_False; [done|]. intros HF. by inversion HF.
    + rewrite decide_False; [done|]. intros HF. inversion HF as [|?? [? ?]]; simplify_eq.
Qed.

Lemma ConnectionPool_closing_idemp obj :
  ConnectionPool_closing (ConnectionPool_closing obj) = ConnectionPool_closing obj.
Proof. unfold ConnectionPool_closing. by destruct obj as [a [] cs]. Qed.

Lemma ConnectionPool_closing_address obj :
  pool_address (ConnectionPool_closing obj) = pool_address obj.
Proof. unfold ConnectionPool_closing. by destruct obj as [a [] cs]. Qed.

Lemma close_all_lookup ps h q :
  close_all ps h !! q =
  if decide (q ∈ ps) then ConnectionPool_closing <$> h !! q else h !! q.
Proof.
  revert h. induction ps as [|p ps IH]; intros h; simpl.
  - done.
  - rewrite IH. destruct (decide (p = q)) as [<- | Hne].
    + rewrite lookup_alter_eq. destruct (decide (p ∈ p :: ps)) as [_|Hn]; [|by destruct Hn; left].
      destruct (decide (p ∈ ps)); [|done]. destruct (h !! p); simpl; [|done].
      by rewrite ConnectionPool_closing_idemp.
    + rewrite lookup_alter_ne by done.
      destruct (decide (q ∈ ps)).
      * by rewrite decide_True by (by right).
      * rewrite decide_False; [done|]. rewrite elem_of_cons. intuition congruence.
Qed.

Lemma cancel_all_lookup cs h q :
  cancel_all cs h !! q =
  if decide (q ∈ cs) then ConnectionPoolConnector_cancelled <$> h !! q else h !! q.
Proof.
  revert h. induction cs as [|c cs IH]; intros h; simpl.
  - done.
  - rewrite IH. destruct (decide (c = q)) as [<- | Hne].
    + rewrite lookup_alter_eq. destruct (decide (c ∈ c :: cs)) as [_|Hn]; [|by destruct Hn; left].
      destruct (decide (c ∈ cs)); [|done]. by destruct (h !! c).
    + rewrite lookup_alter_ne by done.
      destruct (decide (q ∈ cs)).
      * by rewrite decide_True by (by right).
      * rewrite decide_False; [done|]. rewrite elem_of_cons. intuition congruence.
Qed.

Lemma pending_for_inr cs a w b w' :
  pending_for cs a w = inr (b, w') →
  w' = w ∧
  (b = true → Some a ∈ connector_at w <$> cs) ∧
  (b = false → Forall (λ c, ∃ obj, connector_heap w !! c = Some obj
                                   ∧ connector_address obj ≠ a) cs).
Proof.
  revert w. induction cs as [|c cs IH]; intros w H; simpl in H.
  - minv. split; [done|]. split; [done|]. by constructor.
  - minv.
    + split; [done|]. split; [|done]. intros _. rewrite fmap_cons, elem_of_cons. left.
      unfold connector_at, connector_address_in. by rewrite Hconn.
    + apply IH in H as (-> & Ht & Hf). split; [done|]. split.
      * intros Hb. rewrite fmap_cons, elem_of_cons. right. auto.
      * intros Hb. constructor; eauto.
Qed.

Lemma pending_for_eq cs a w :
  Forall (λ c, is_Some (connector_heap w !! c)) cs →
  pending_for cs a w = inr (bool_decide (Some a ∈ connector_at w <$> cs), w).
Proof.
  induction 1 as [|c cs [obj Hobj] Hall IH]; cbn [pending_for].
  - done.
  - unfold bind, ConnectionPoolConnector_address, bind, the_connector. rewrite Hobj.
    unfold ret at 1. rewrite fmap_cons.
    destruct (decide (connector_address obj = a)) as [<- | Hne].
    + unfold ret. rewrite bool_decide_eq_true_2; [done|]. rewrite elem_of_cons. left.
      unfold connector_at, connector_address_in. by rewrite Hobj.
    + rewrite IH. f_equal. f_equal. apply bool_decide_ext.
      rewrite elem_of_cons. unfold connector_at at 2. unfold connector_address_in at 1.
      rewrite Hobj. simpl. intuition congruence.
Qed.

Lemma callbacks_app cs ds : callbacks (cs ++ ds) = callbacks cs ++ callbacks ds.
Proof. apply omap_app. Qed.

Lemma callbacks_silent {A} (f : A → Call) (l : list A) :
  (∀ x, callback_of (f x) = None) → callbacks (f <$> l) = [].
Proof.
  intros Hf. induction l as [|x l IH]; [done|].
  rewrite fmap_cons. unfold callbacks in *. simpl. rewrite Hf. done.
Qed.

Lemma count_on_close_app cs ds :
  count_on_close (cs ++ ds) = count_on_close cs + count_on_close ds.
Proof.
  unfold count_on_close. rewrite callbacks_app, filter_app, length_app. done.
Qed.

Lemma count_on_close_snoc cs c :
  count_on_close (cs ++ [c]) =
  count_on_close cs + (if decide (callback_of c = Some on_close) then 1 else 0).
Proof.
  rewrite count_on_close_app. f_equal.
  destruct c as [l []| | | |]; done.
Qed.

Lemma count_on_close_silent {A} cs (f : A → Call) (l : list A) :
  (∀ x, callback_of (f x) = None) → count_on_close (cs ++ (f <$> l)) = count_on_close cs.
Proof.
  intros Hf. rewrite count_on_close_app. unfold count_on_close at 2.
  rewrite callbacks_silent by done. simpl. lia.
Qed.

Lemma NoDup_fmap_filter {A B} (f : A → B) (P : A → Prop) `{!∀ x, Decision (P x)} l :
  NoDup (f <$> l) → NoDup (f <$> filter P l).
Proof.
  induction l as [|x l IH]; [done|].
  rewrite fmap_cons, NoDup_cons. intros [Hx Hl]. rewrite filter_cons.
  destruct (decide (P x)); [|by auto].
  rewrite fmap_cons, NoDup_cons. split; [|by auto].
  intros Hin. apply Hx. apply list_elem_of_fmap in Hin as (y & -> & Hy).
  apply list_elem_of_fmap. exists y. split; [done|].
  by apply list_elem_of_filter in Hy as [_ ?].
Qed.

Lemma maybe_closed_inr w u w' :
  maybe_closed w = inr (u, w') →
  (close_state_ (manager w) = CLOSE_STATE_CLOSING ∧ pools_ (manager w) = ∅ ∧
   ∃ l, listener_ (manager w) = Some l ∧
     w' = mkWorld (with_ref_count (pred (ref_count_ (manager w)))
                     (with_close_state CLOSE_STATE_CLOSED (manager w)))
                  (pool_heap w) (connector_heap w)
                  (calls w ++ [listener_call l on_close]))
  ∨ (¬ (close_state_ (manager w) = CLOSE_STATE_CLOSING ∧ pools_ (manager w) = ∅) ∧ w' = w).
Proof.
  intros H. unfold maybe_closed in H. minv.
  - left. match goal with Ha : _ ∧ _ |- _ => destruct Ha as [? ?] end.
    do 2 (split; [done|]). eauto.
  - right. done.
Qed.

(** Unfold a manager method and take its run apart, loops and
    [maybe_closed] included. *)
Ltac mloops :=
  repeat match goal with
    | H : for_each _ ConnectionPool_flush _ = inr _ |- _ =>
        rewrite for_each_flush in H;
        destruct (decide _) as [?Hheap|] in H; [|discriminate H]; minv_prim H
    | H : for_each _ (λ it, ConnectionPool_close _) _ = inr _ |- _ =>
        rewrite (for_each_fmap snd ConnectionPool_close), for_each_close in H;
        destruct (decide _) as [?Hheap|] in H; [|discriminate H]; minv_prim H
    | H : for_each _ ConnectionPoolConnector_cancel _ = inr _ |- _ =>
        rewrite for_each_cancel in H;
        destruct (decide _) as [?Hheap|] in H; [|discriminate H]; minv_prim H
    | H : pending_for _ _ _ = inr _ |- _ =>
        let Ht := fresh "Hfound" in
        let Hf := fresh "Hnone" in
        apply pending_for_inr in H as (-> & Ht & Hf)
    | H : maybe_closed _ = inr _ |- _ =>
        let Hs := fresh "Hclosing" in
        let Hp := fresh "Hempty" in
        let Hl := fresh "Hlistener" in
        let Hn := fresh "Hnot" in
        apply maybe_closed_inr in H as [(Hs & Hp & ? & Hl & ->) | [Hn ->]]
    | H : <[?c := _]> _ !! ?c = None |- _ =>
        rewrite lookup_insert_eq in H; discriminate H
    | H : <[?c := _]> _ !! ?c = Some _ |- _ =>
        rewrite lookup_insert_eq in H; simplify_eq;
        cbn [connector_outcome connector_address connector_cancelled connector_connecting
             pool_address pool_state connections] in *; simplify_eq
    end.

Ltac mexec :=
  repeat match goal with
    | H : context [find_least_busy] |- _ => unfold find_least_busy in H
    | H : context [flush] |- _ => unfold flush in H
    | H : context [available] |- _ => unfold available in H
    | H : context [add] |- _ => unfold add in H
    | H : context [remove] |- _ => unfold remove in H
    | H : context [close] |- _ => unfold close in H
    | H : context [set_listener] |- _ => unfold set_listener in H
    | H : context [keyspace] |- _ => unfold keyspace in H
    | H : context [set_keyspace] |- _ => unfold set_keyspace in H
    | H : context [notify_closed] |- _ => unfold notify_closed in H
    | H : context [notify_up] |- _ => unfold notify_up in H
    | H : context [notify_down] |- _ => unfold notify_down in H
    | H : context [notify_critical_error] |- _ => unfold notify_critical_error in H
    | H : context [requires_flush] |- _ => unfold requires_flush in H
    | H : context [ConnectionPoolConnector_complete] |- _ =>
        unfold ConnectionPoolConnector_complete in H
    end;
  repeat (progress (minv; mloops; cbn [manager pool_heap connector_heap calls] in * ));
  cbn [manager pool_heap connector_heap calls] in *.

(** *** The parts of [WF] under the updates the methods make *)

Lemma count_on_close_pool_close cs ps :
  count_on_close (cs ++ (pool_close <$> ps)) = count_on_close cs.
Proof. by apply count_on_close_silent. Qed.

Lemma count_on_close_pool_flush cs ps :
  count_on_close (cs ++ (pool_flush <$> ps)) = count_on_close cs.
Proof. by apply count_on_close_silent. Qed.

Lemma count_on_close_connector_cancel cs ps :
  count_on_close (cs ++ (connector_cancel <$> ps)) = count_on_close cs.
Proof. by apply count_on_close_silent. Qed.

Lemma pools_ok_ext ps h h' :
  pools_ok ps h →
  (∀ q a, pool_address_in h q = Some a → pool_address_in h' q = Some a) →
  pools_ok ps h'.
Proof. intros H Hext a p Hp. eauto. Qed.

Lemma pools_ok_delete ps h a : pools_ok ps h → pools_ok (delete a ps) h.
Proof.
  intros H b p Hb. apply lookup_delete_Some in Hb as [_ Hb]. eauto.
Qed.

Lemma pools_ok_insert ps h p a :
  pools_ok ps h → pool_address_in h p = Some a → pools_ok (<[a := p]> ps) h.
Proof.
  intros H Hp b q Hb. apply lookup_insert_Some in Hb as [[<- <-] | [_ Hb]]; eauto.
Qed.

Lemma pools_ok_empty h : pools_ok ∅ h.
Proof. intros a p. by rewrite lookup_empty. Qed.

Lemma pool_address_in_closing h p obj q a :
  h !! p = Some obj →
  pool_address_in h q = Some a →
  pool_address_in (<[p := ConnectionPool_closing obj]> h) q = Some a.
Proof.
  unfold pool_address_in. intros Hp Hq. destruct (decide (p = q)) as [<- | Hne].
  - rewrite lookup_insert_eq. rewrite Hp in Hq. simpl in *.
    by rewrite ConnectionPool_closing_address.
  - by rewrite lookup_insert_ne.
Qed.

Lemma pool_address_in_close_all ps h q :
  pool_address_in (close_all ps h) q = pool_address_in h q.
Proof.
  unfold pool_address_in. rewrite close_all_lookup.
  destruct (decide (q ∈ ps)); [|done]. destruct (h !! q); simpl; [|done].
  by rewrite ConnectionPool_closing_address.
Qed.

Lemma pool_address_in_fresh h obj q a :
  pool_address_in h q = Some a →
  pool_address_in (<[fresh (dom h) := obj]> h) q = Some a.
Proof.
  unfold pool_address_in. intros Hq. rewrite lookup_insert_ne; [done|].
  intros <-. assert (fresh (dom h) ∈ dom h) as Hin.
  { apply elem_of_dom. destruct (h !! fresh (dom h)); [eauto | done]. }
  by apply is_fresh in Hin.
Qed.

Lemma pending_ok_ext cs h h' :
  pending_ok cs h →
  (∀ c, is_Some (h !! c) →
        is_Some (h' !! c) ∧ connector_address_in h' c = connector_address_in h c) →
  pending_ok cs h'.
Proof.
  intros [Hall Hnd] Hext. split.
  - eapply Forall_impl; [exact Hall|]. intros c Hc. by apply Hext.
  - replace (connector_address_in h' <$> cs) with (connector_address_in h <$> cs); [done|].
    apply Forall_fmap_ext_1. eapply Forall_impl; [exact Hall|].
    intros c Hc. symmetry. by apply Hext.
Qed.

Lemma pending_ok_filter (P : positive → Prop) `{!∀ x, Decision (P x)} cs h :
  pending_ok cs h → pending_ok (filter P cs) h.
Proof.
  intros [Hall Hnd]. split.
  - rewrite Forall_forall in *. intros c Hc.
    apply list_elem_of_filter in Hc as [_ Hc]. auto.
  - by apply NoDup_fmap_filter.
Qed.

Lemma connector_heap_store h c obj obj' :
  h !! c = Some obj → connector_address obj' = connector_address obj →
  ∀ d, is_Some (h !! d) →
       is_Some (<[c := obj']> h !! d)
       ∧ connector_address_in (<[c := obj']> h) d = connector_address_in h d.
Proof.
  intros Hc Ha d Hd. unfold connector_address_in. destruct (decide (c = d)) as [<- | Hne].
  - rewrite lookup_insert_eq, Hc. simpl. split; [eauto | by f_equal].
  - by rewrite lookup_insert_ne.
Qed.

Lemma connector_heap_cancel_all cs h :
  ∀ d, is_Some (h !! d) →
       is_Some (cancel_all cs h !! d)
       ∧ connector_address_in (cancel_all cs h) d = connector_address_in h d.
Proof.
  intros d [obj Hd]. unfold connector_address_in. rewrite cancel_all_lookup, Hd.
  destruct (decide (d ∈ cs)); simpl; eauto.
Qed.

Lemma fresh_connector_None (h : gmap positive ConnectionPoolConnector) :
  h !! fresh (dom h) = None.
Proof.
  destruct (h !! fresh (dom h)) eqn:E; [|done].
  assert (fresh (dom h) ∈ dom h) as Hin by (apply elem_of_dom; eauto).
  by apply is_fresh in Hin.
Qed.

Lemma pending_ok_snoc cs h c obj :
  pending_ok cs h → h !! c = None →
  Some (connector_address obj) ∉ connector_address_in h <$> cs →
  pending_ok (cs ++ [c]) (<[c := obj]> h).
Proof.
  intros [Hall Hnd] Hc Hnew.
  assert (∀ d, d ∈ cs → connector_address_in (<[c := obj]> h) d = connector_address_in h d)
    as Hsame.
  { intros d Hd. unfold connector_address_in. rewrite lookup_insert_ne; [done|].
    intros <-. rewrite Forall_forall in Hall. apply Hall in Hd as [? ?]. congruence. }
  split.
  - apply Forall_app. split.
    + eapply Forall_impl; [exact Hall|]. intros d Hd. apply lookup_insert_is_Some'. by right.
    + constructor; [|constructor]. rewrite lookup_insert_eq. eauto.
  - rewrite fmap_app. apply NoDup_app.
    replace (connector_address_in (<[c:=obj]> h) <$> cs) with (connector_address_in h <$> cs)
      by (apply Forall_fmap_ext_1, Forall_forall; intros d Hd; symmetry; auto).
    split; [done|]. split.
    + intros x Hx. simpl. unfold connector_address_in at 1. rewrite lookup_insert_eq. simpl.
      rewrite list_elem_of_singleton. by intros ->.
    + simpl. apply NoDup_singleton.
Qed.

Lemma pending_none_not_in cs h a :
  Forall (λ c, ∃ obj, h !! c = Some obj ∧ connector_address obj ≠ a) cs →
  Some a ∉ connector_address_in h <$> cs.
Proof.
  intros Hall Hin. apply list_elem_of_fmap in Hin as (c & Hc & Hin).
  rewrite Forall_forall in Hall. apply Hall in Hin as (obj & Hobj & Hne).
  unfold connector_address_in in Hc. rewrite Hobj in Hc. simpl in Hc. congruence.
Qed.

Create Rewrite HintDb wf.

#[local] Hint Rewrite count_on_close_snoc count_on_close_pool_close
  count_on_close_pool_flush count_on_close_connector_cancel : wf.

Ltac wf_count H :=
  repeat match goal with
    | E : close_state_ _ = _ |- _ => progress simpl in E
    end;
  autorewrite with wf; rewrite H; cbn [callback_of];
  repeat case_decide; simplify_eq; try done; try congruence; try lia.

Ltac wf_pools :=
  lazymatch goal with
  | |- pools_ok (delete _ _) _ => apply pools_ok_delete; wf_pools
  | |- pools_ok (<[_ := _]> _) _ =>
      apply pools_ok_insert;
      [ wf_pools
      | unfold pool_address_in;
        first [ by rewrite lookup_insert_eq
              | match goal with
                | H : ?h !! ?p = Some _ |- _ <$> ?h !! ?p = _ => by rewrite H
                end ] ]
  | |- pools_ok ?ps (<[fresh _ := _]> ?h) =>
      apply (pools_ok_ext ps h); [wf_pools | intros; by apply pool_address_in_fresh]
  | |- pools_ok ?ps (<[_ := ConnectionPool_closing _]> ?h) =>
      apply (pools_ok_ext ps h); [wf_pools | intros; by apply pool_address_in_closing]
  | |- pools_ok ?ps (close_all _ ?h) =>
      apply (pools_ok_ext ps h); [wf_pools | intros; by rewrite pool_address_in_close_all]
  | |- pools_ok ∅ _ => apply pools_ok_empty
  | |- pools_ok _ _ => assumption
  end.

Ltac wf_pending :=
  lazymatch goal with
  | |- pending_ok (filter _ _) _ => apply pending_ok_filter; wf_pending
  | |- pending_ok ?cs (cancel_all _ ?h) =>
      apply (pending_ok_ext cs h); [wf_pending | apply connector_heap_cancel_all]
  | |- pending_ok (_ ++ [_]) (<[?c := _]> (<[?c := _]> _)) =>
      rewrite insert_insert_eq; apply pending_ok_snoc;
      [ wf_pending | apply fresh_connector_None | by apply pending_none_not_in; auto ]
  | |- pending_ok ?cs (<[_ := _]> ?h) =>
      apply (pending_ok_ext cs h);
      [ wf_pending | eapply connector_heap_store; [eassumption | done] ]
  | |- pending_ok _ _ => assumption
  end.

Lemma step_WF ev w u w' : step ev w = inr (u, w') → WF w → WF w'.
Proof.
  intros H HWF. destruct ev; cbn [step] in H; mexec; try done.
  all: destruct HWF as [H1 H2 H3 H4 H5 H6]; constructor; simpl; try done.
  all: try (wf_count H6; fail).
  all: try (wf_pools; fail).
  all: try (wf_pending; fail).
  all: try (intros; apply insert_non_empty; fail).
  all: try (simpl in *; intuition congruence).
  by destruct listener.
Qed.

Lemma boot_WF loop protocol_version keyspace metrics settings :
  WF (boot loop protocol_version keyspace metrics settings).
Proof.
  constructor; simpl; try done.
  split; constructor.
Qed.

Lemma run_WF evs w u w' : run evs w = inr (u, w') → WF w → WF w'.
Proof.
  revert w. induction evs as [|ev evs IH]; intros w H HWF; simpl in H.
  - minv. done.
  - apply bind_inr in H as ([] & w1 & H1 & H2). eauto using step_WF.
Qed.

(** *** No call through a null listener *)

Lemma bind_inl {A B} (m : M A) (k : A → M B) w f :
  bind m k w = inl f → m w = inl f ∨ ∃ a w1, m w = inr (a, w1) ∧ k a w1 = inl f.
Proof.
  unfold bind. destruct (m w) as [g | [a w1]]; intros H; [left; congruence | right; eauto].
Qed.

Lemma pending_for_inl cs a w f : pending_for cs a w = inl f → f = DanglingConnector.
Proof.
  induction cs as [|c cs IH]; simpl; [done|].
  unfold bind, ConnectionPoolConnector_address, bind, the_connector.
  destruct (connector_heap w !! c) as [obj|]; [|by intros [= <-]].
  unfold ret. case_decide; [done | auto].
Qed.

Lemma maybe_closed_inl w f :
  maybe_closed w = inl f → f = NullListener ∧ listener_ (manager w) = None.
Proof.
  unfold maybe_closed, bind, get. case_decide; [|done].
  unfold modify, listener_do, bind, get. simpl.
  destruct (listener_ (manager w)); [done|]. by intros [= <-].
Qed.

(** Follow a fault back to the call that raised it. *)
Ltac mfault :=
  repeat match goal with
    | H : bind _ _ _ = inl _ |- _ =>
        let H1 := fresh "H" in
        apply bind_inl in H as [H | (? & ? & H1 & H)]; cbv beta in H
    | H : ret _ _ = inl _ |- _ => discriminate H
    | H : get _ _ = inl _ |- _ => discriminate H
    | H : modify _ _ = inl _ |- _ => discriminate H
    | H : record _ _ = inl _ |- _ => discriminate H
    | H : store_pool _ _ _ = inl _ |- _ => discriminate H
    | H : store_connector _ _ _ = inl _ |- _ => discriminate H
    | H : allocate_pool _ _ = inl _ |- _ => discriminate H
    | H : allocate_connector _ _ = inl _ |- _ => discriminate H
    | H : fault _ _ = inl _ |- _ => unfold fault in H; simplify_eq
    | H : the_pool ?p ?w = inl _ |- _ =>
        unfold the_pool in H; destruct (pool_heap w !! p) eqn:?; simplify_eq
    | H : the_connector ?c ?w = inl _ |- _ =>
        unfold the_connector in H; destruct (connector_heap w !! c) eqn:?; simplify_eq
    | H : for_each _ ConnectionPool_flush _ = inl _ |- _ =>
        rewrite for_each_flush in H; destruct (decide _) in H; simplify_eq
    | H : for_each _ (λ it, ConnectionPool_close _) _ = inl _ |- _ =>
        rewrite (for_each_fmap snd ConnectionPool_close), for_each_close in H;
        destruct (decide _) in H; simplify_eq
    | H : for_each _ ConnectionPoolConnector_cancel _ = inl _ |- _ =>
        rewrite for_each_cancel in H; destruct (decide _) in H; simplify_eq
    | H : pending_for _ _ _ = inl _ |- _ => apply pending_for_inl in H; simplify_eq
    | H : maybe_closed _ = inl _ |- _ =>
        let E := fresh "Hnull" in
        apply maybe_closed_inl in H as [_ E]
    | H : listener_do _ _ = inl _ |- _ => unfold listener_do in H
    | H : inc_ref _ = inl _ |- _ => unfold inc_ref in H
    | H : dec_ref _ = inl _ |- _ => unfold dec_ref in H
    | H : uv_mutex_lock _ = inl _ |- _ => unfold uv_mutex_lock in H
    | H : uv_mutex_unlock _ = inl _ |- _ => unfold uv_mutex_unlock in H
    | H : ScopedMutex _ _ = inl _ |- _ => unfold ScopedMutex in H
    | H : alive _ = inl _ |- _ => unfold alive in H
    | H : method _ _ = inl _ |- _ => unfold method in H
    | H : ConnectionPool_address _ _ = inl _ |- _ => unfold ConnectionPool_address in H
    | H : ConnectionPool_close _ _ = inl _ |- _ => unfold ConnectionPool_close in H
    | H : ConnectionPool_flush _ _ = inl _ |- _ => unfold ConnectionPool_flush in H
    | H : ConnectionPool_find_least_busy _ _ = inl _ |- _ =>
        unfold ConnectionPool_find_least_busy in H
    | H : ConnectionPoolConnector_address _ _ = inl _ |- _ =>
        unfold ConnectionPoolConnector_address in H
    | H : ConnectionPoolConnector_connect _ _ = inl _ |- _ =>
        unfold ConnectionPoolConnector_connect in H
    | H : ConnectionPoolConnector_cancel _ _ = inl _ |- _ =>
        unfold ConnectionPoolConnector_cancel in H
    | H : ConnectionPoolConnector_outcome _ _ = inl _ |- _ =>
        unfold ConnectionPoolConnector_outcome in H
    | H : is_ok _ _ = inl _ |- _ => unfold is_ok in H
    | H : release_pool _ _ = inl _ |- _ => unfold release_pool in H
    | H : error_code _ _ = inl _ |- _ => unfold error_code in H
    | H : error_message _ _ = inl _ |- _ => unfold error_message in H
    | H : internal_add_pool _ _ = inl _ |- _ => unfold internal_add_pool in H
    | H : add_pool _ _ = inl _ |- _ => unfold add_pool in H
    | H : on_connect _ _ = inl _ |- _ => unfold on_connect in H
    | H : handle_connect _ _ = inl _ |- _ => unfold handle_connect in H
    | H : (if ?c then _ else _) _ = inl _ |- _ => destruct c eqn:?
    | H : (match ?x with _ => _ end) _ = inl _ |- _ => destruct x eqn:?
    end.

Lemma step_no_null_listener ev w :
  listener_ (manager w) ≠ None → step ev w ≠ inl NullListener.
Proof.
  intros Hl H. destruct ev; cbn [step] in H.
  all: repeat (progress (mexec; mfault)); simpl in *; congruence.
Qed.

(** ** The listener is never null *)

(** C9: in every reachable state the listener pointer is non-null: the
    constructor installs the no-op listener, [set_listener(l)] installs [l]
    when it is non-null and the no-op listener when it is null, and no
    entry point ever faults on a null listener. *)
Theorem listener_never_null loop protocol_version ks metrics settings evs w :
  run evs (boot loop protocol_version ks metrics settings) = inr (tt, w) →
  listener_ (ConnectionPoolManager_new loop protocol_version ks metrics settings)
    = Some nop_connection_pool_manager_listener__
  ∧ listener_ (manager w) ≠ None
  ∧ (∀ l, ∃ w', set_listener (Some l) w = inr (tt, w') ∧ listener_ (manager w') = Some l)
  ∧ (∃ w', set_listener None w = inr (tt, w')
           ∧ listener_ (manager w') = Some nop_connection_pool_manager_listener__)
  ∧ (∀ ev, step ev w ≠ inl NullListener).
Proof.
  intros Hrun.
  assert (WF w) as HWF by (eapply run_WF; [exact Hrun | apply boot_WF]).
  split; [done|]. split; [apply HWF|]. split; [|split].
  - intros l. eexists. split; [reflexivity | done].
  - eexists. split; [reflexivity | done].
  - intros ev. apply step_no_null_listener, HWF.
Qed.

Lemma listener_never_null_witness :
  listener_ (manager (world_after [ev_set_listener None; ev_add host1; ev_close] fresh_manager))
  ≠ None.
Proof.
  refine (proj1 (proj2 (listener_never_null 0 4 "ks" 0 example_settings
                          [ev_set_listener None; ev_add host1; ev_close] _ _))).
  vm_compute. reflexivity.
Defined.

(** ** The keyspace under its mutex *)

Lemma keyspace_eq w :
  keyspace_mutex_ (manager w) = false → keyspace w = inr (keyspace_ (manager w), w).
Proof.
  destruct w as [m ph ch cs]. destruct m. simpl. intros ->. reflexivity.
Qed.

Lemma step_keyspace ev w u w' :
  step ev w = inr (u, w') →
  keyspace_mutex_ (manager w) = false →
  keyspace_mutex_ (manager w') = false
  ∧ ((∀ k, ev ≠ ev_set_keyspace k) → keyspace_ (manager w') = keyspace_ (manager w)).
Proof.
  intros H Hm. destruct ev; cbn [step] in H; mexec; simpl in *.
  all: split; [done|]; intros Hne; try done.
  all: exfalso; eapply Hne; reflexivity.
Qed.

Lemma run_keyspace evs w u w' :
  run evs w = inr (u, w') →
  keyspace_mutex_ (manager w) = false →
  (∀ k, ev_set_keyspace k ∉ evs) →
  keyspace_mutex_ (manager w') = false ∧ keyspace_ (manager w') = keyspace_ (manager w).
Proof.
  revert w. induction evs as [|ev evs IH]; intros w H Hm Hno; simpl in H.
  - minv. done.
  - apply bind_inr in H as ([] & w1 & H1 & H2).
    apply step_keyspace in H1 as [Hm1 Hk1]; [|done].
    apply IH in H2 as [Hm2 Hk2]; [|done|].
    + split; [done|]. rewrite Hk2. apply Hk1. intros k ->. apply (Hno k). left.
    + intros k Hin. apply (Hno k). by right.
Qed.

(** C10: [set_keyspace(k)] followed by [keyspace()], with no other
    [set_keyspace] in between, returns [k] whatever the keyspace was before;
    both operations take the keyspace mutex (they stop on a mutex that is
    held) and leave it free. *)
Theorem keyspace_round_trip w k :
  keyspace_mutex_ (manager w) = false →
  ∃ w1, set_keyspace k w = inr (tt, w1)
    ∧ keyspace w1 = inr (k, w1)
    ∧ (∀ evs w2, (∀ k', ev_set_keyspace k' ∉ evs) →
                 run evs w1 = inr (tt, w2) → keyspace w2 = inr (k, w2))
    ∧ (∀ held, keyspace_mutex_ (manager held) = true →
               keyspace held = inl MutexHeld ∧ set_keyspace k held = inl MutexHeld).
Proof.
  intros Hm.
  exists (mkWorld (with_keyspace k (manager w)) (pool_heap w) (connector_heap w) (calls w)).
  split; [|split; [|split]].
  - unfold set_keyspace, ScopedMutex, uv_mutex_lock, uv_mutex_unlock, bind, get, modify, ret.
    rewrite Hm. simpl. destruct w as [m ph ch cs]. destruct m. simpl in *. by subst.
  - by rewrite keyspace_eq.
  - intros evs w2 Hno Hrun. apply run_keyspace in Hrun as [Hm2 Hk2]; [|done..].
    rewrite keyspace_eq by done. by rewrite Hk2.
  - intros held Hheld.
    unfold keyspace, set_keyspace, ScopedMutex, uv_mutex_lock, bind, get. by rewrite Hheld.
Qed.

Lemma keyspace_round_trip_witness :
  ∃ w1, set_keyspace "system" fresh_manager = inr (tt, w1)
    ∧ keyspace w1 = inr ("system"%string, w1).
Proof.
  destruct (keyspace_round_trip fresh_manager "system") as (w1 & H1 & H2 & _).
  - reflexivity.
  - exists w1. split; assumption.
Defined.

(** ** Looking up the least busy connection *)

Lemma least_busy_of_elem cs c : least_busy_of cs = Some c → c ∈ cs.
Proof.
  revert c. induction cs as [|d cs IH]; intros c; simpl; [done|].
  destruct (least_busy_of cs) as [e|].
  - destruct (less_busy e d); intros [= <-]; [right; auto | left].
  - intros [= <-]. left.
Qed.

(** C6: [find_least_busy(a)] returns none when the manager has no pool
    for [a] and when the pool for [a] is closing or closed; a connection it
    returns belongs to the pool registered for [a], and that pool is
    neither closing nor closed. *)
Theorem find_least_busy_live_pool w a :
  (pools_ (manager w) !! a = None → find_least_busy a w = inr (None, w))
  ∧ (∀ p obj, pools_ (manager w) !! a = Some p → pool_heap w !! p = Some obj →
       ∃ r, find_least_busy a w = inr (r, w)
         ∧ (pool_state obj = closing ∨ pool_state obj = closed → r = None)
         ∧ (∀ conn, r = Some conn →
              conn ∈ connections obj ∧ has_free_stream conn = true
              ∧ pool_state obj ≠ closing ∧ pool_state obj ≠ closed)).
Proof.
  unfold find_least_busy, bind, get. split.
  - by intros ->.
  - intros p obj -> Hobj. unfold ConnectionPool_find_least_busy, bind, the_pool.
    rewrite Hobj. destruct (pool_state obj) eqn:Hs; unfold ret.
    1-3: eexists; split; [reflexivity|]; split; [by intros [|] |];
         intros conn Hc; apply least_busy_of_elem, list_elem_of_filter in Hc as [? ?]; done.
    all: eexists; split; [reflexivity|]; split; [done | by intros conn [=]].
Qed.

(** A pool that came up and was then removed: still registered, closing,
    and nothing is handed out from it. *)
Lemma find_least_busy_live_pool_witness :
  find_least_busy host1 pool_removed = inr (None, pool_removed).
Proof.
  destruct (proj2 (find_least_busy_live_pool pool_removed host1) 1%positive
              (mkConnectionPool host1 closing [idle_connection]))
    as (r & Hr & Hnone & _).
  - vm_compute. reflexivity.
  - vm_compute. reflexivity.
  - rewrite Hr, Hnone; [reflexivity | by left].
Defined.

(** The first scenario of the specification: [add(10.0.0.1:9042)], the
    connects complete and the pool announces itself. *)
Example happy_start :
  ∃ w, run [ev_add host1; ev_connector_done 1 (connected [idle_connection]); ev_notify_up 1]
           fresh_manager = inr (tt, w)
    ∧ callbacks (calls w) = [on_pool_up host1]
    ∧ available w = inr ([host1], w)
    ∧ find_least_busy host1 w = inr (Some idle_connection, w).
Proof.
  eexists. split; [vm_compute; reflexivity|]. repeat split.
Qed.

(** ** Removing a pool *)

Lemma available_eq w : available w = inr ((map_to_list (pools_ (manager w))).*1, w).
Proof. reflexivity. Qed.

Lemma elem_of_available (ps : gmap Address positive) a :
  a ∈ (map_to_list ps).*1 ↔ is_Some (ps !! a).
Proof.
  rewrite list_elem_of_fmap. split.
  - intros ([b p] & -> & Hin). apply elem_of_map_to_list in Hin. eauto.
  - intros [p Hp]. exists (a, p). split; [done|]. by apply elem_of_map_to_list.
Qed.

(** C8: [remove(a)] on a registered address only asks the pool to close:
    the manager's fields (pools map, flush set) are unchanged and [a] is
    still in [available()]; [notify_closed], called later by the pool,
    erases that pool's address from the pools map and the pool from the
    flush set and leaves every other entry alone; [remove(a)] on an absent
    address changes nothing. *)
Theorem remove_defers_to_notify_closed w a :
  (pools_ (manager w) !! a = None → remove a w = inr (tt, w))
  ∧ (∀ p obj, pools_ (manager w) !! a = Some p → pool_heap w !! p = Some obj →
       ∃ w1, remove a w = inr (tt, w1)
         ∧ manager w1 = manager w
         ∧ connector_heap w1 = connector_heap w
         ∧ pool_heap w1 = <[p := ConnectionPool_closing obj]> (pool_heap w)
         ∧ calls w1 = calls w ++ [pool_close p]
         ∧ ∃ l, available w1 = inr (l, w1) ∧ a ∈ l)
  ∧ (∀ pool obj b, pool_heap w !! pool = Some obj → listener_ (manager w) ≠ None →
       ∃ w2, notify_closed pool b w = inr (tt, w2)
         ∧ pools_ (manager w2) = delete (pool_address obj) (pools_ (manager w))
         ∧ to_flush_ (manager w2) = to_flush_ (manager w) ∖ {[pool]}
         ∧ (∀ a', a' ≠ pool_address obj →
                  pools_ (manager w2) !! a' = pools_ (manager w) !! a')
         ∧ (∀ q, q ≠ pool → q ∈ to_flush_ (manager w2) ↔ q ∈ to_flush_ (manager w))
         ∧ pools_ (manager w2) !! pool_address obj = None
         ∧ pool ∉ to_flush_ (manager w2)).
Proof.
  split; [|split].
  - intros Ha. unfold remove, bind, get. by rewrite Ha.
  - intros p obj Ha Hobj. eexists. split.
    + unfold remove, bind, get. rewrite Ha.
      unfold ConnectionPool_close, bind, the_pool. rewrite Hobj. reflexivity.
    + simpl. do 4 (split; [done|]). eexists. split; [apply available_eq|].
      simpl. apply elem_of_available. eauto.
  - intros pool obj b Hobj Hl.
    destruct (notify_closed pool b w) as [f | [[] w2]] eqn:E.
    { exfalso. repeat (progress (mexec; mfault)); simpl in *; congruence. }
    exists w2. split; [done|]. mexec; simpl.
    all: split; [done|]; split; [done|].
    all: split; [by intros; apply lookup_delete_ne|].
    all: split; [intros q Hq; rewrite elem_of_difference, elem_of_singleton; tauto|].
    all: split; [apply lookup_delete_eq|].
    all: rewrite elem_of_difference, elem_of_singleton; tauto.
Qed.

(** The pool for [host1] is asked to close and then reports closed. *)
Lemma remove_defers_to_notify_closed_witness :
  ∃ w1 w2 hosts, remove host1 pool_up = inr (tt, w1)
    ∧ available w1 = inr (hosts, w1) ∧ host1 ∈ hosts
    ∧ notify_closed 1 true w1 = inr (tt, w2)
    ∧ pools_ (manager w2) !! host1 = None.
Proof.
  destruct (proj1 (proj2 (remove_defers_to_notify_closed pool_up host1)) 1%positive
              (mkConnectionPool host1 ready [idle_connection]))
    as (w1 & Hremove & Hm & Hc & Hp & _ & l & Hl & Hin);
    [vm_compute; reflexivity | vm_compute; reflexivity |].
  destruct (proj2 (proj2 (remove_defers_to_notify_closed w1 host1)) 1%positive
              (ConnectionPool_closing (mkConnectionPool host1 ready [idle_connection])) true)
    as (w2 & Hnotify & _ & _ & _ & _ & Hgone & _).
  - rewrite Hp. apply lookup_insert_eq.
  - rewrite Hm. vm_compute. discriminate.
  - exists w1, w2, l. auto.
Defined.

(** ** A connector that fails *)

(** C5: when a connector completes with no successful connection, the
    manager drops it from [pending_pools_], delivers one
    [on_pool_critical_error] with the connector's address, error code and
    message and nothing else, and registers no pool: the pools map is
    unchanged, so an address that had no pool is not in [available()]. *)
Theorem failed_connector_is_critical_error w c obj l code message :
  connector_heap w !! c = Some obj →
  listener_ (manager w) = Some l →
  ∃ w', ConnectionPoolConnector_complete c (refused code message) w = inr (tt, w')
    ∧ pending_pools_ (manager w') = filter (λ d, d ≠ c) (pending_pools_ (manager w))
    ∧ (c ∉ pending_pools_ (manager w'))
    ∧ pools_ (manager w') = pools_ (manager w)
    ∧ pool_heap w' = pool_heap w
    ∧ calls w' = calls w ++ [listener_call l (on_pool_critical_error
                                                 (connector_address obj) code message)]
    ∧ (pools_ (manager w) !! connector_address obj = None →
       ∃ hosts, available w' = inr (hosts, w') ∧ connector_address obj ∉ hosts).
Proof.
  intros Hobj Hl.
  destruct (ConnectionPoolConnector_complete c (refused code message) w)
    as [f | [[] w']] eqn:E.
  { exfalso. repeat (progress (mexec; mfault)); simpl in *; congruence. }
  exists w'. split; [done|]. mexec; simpl in *; simplify_eq.
  split; [done|]. split.
  { intros Hin. by apply list_elem_of_filter in Hin as [? _]. }
  do 3 (split; [done|]). intros Hnone. eexists. split; [apply available_eq|].
  simpl. rewrite elem_of_available, Hnone. by intros [? ?].
Qed.

(** The second scenario of the specification: [add(10.0.0.2:9042)] and
    the transport refuses every attempt. *)
Lemma failed_connector_is_critical_error_witness :
  ∃ w', ConnectionPoolConnector_complete 1 (refused 7 "refused") connecting_host2
        = inr (tt, w')
    ∧ callbacks (calls w') = [on_pool_critical_error host2 7 "refused"]
    ∧ available w' = inr ([], w')
    ∧ pending_pools_ (manager w') = [].
Proof.
  destruct (failed_connector_is_critical_error connecting_host2 1
              (mkConnectionPoolConnector host2 true false None)
              nop_connection_pool_manager_listener__ 7 "refused")
    as (w' & Hrun & Hpending & _ & Hpools & _ & Hcalls & _).
  - vm_compute. reflexivity.
  - vm_compute. reflexivity.
  - exists w'. split; [exact Hrun|]. split; [by rewrite Hcalls|].
    split; [by rewrite available_eq, Hpools | by rewrite Hpending].
Defined.

(** ** Adding an address twice *)

Lemma add_WF a w u w' : add a w = inr (u, w') → WF w → WF w'.
Proof.
  intros H HWF. mexec; try done.
  destruct HWF as [H1 H2 H3 H4 H5 H6]; constructor; simpl; try done.
  - wf_pending.
  - wf_count H6.
Qed.

Lemma filter_fmap_absent {A B} `{EqDecision B} (f : A → B) (x : B) (l : list A) :
  x ∉ f <$> l → filter (λ c, f c = x) l = [].
Proof.
  induction l as [|c l IH]; [done|].
  rewrite fmap_cons, not_elem_of_cons. intros [Hne Hl].
  rewrite filter_cons, decide_False by done. auto.
Qed.

Lemma filter_fmap_present {A B} `{EqDecision B} (f : A → B) (x : B) (l : list A) :
  x ∈ f <$> l → 0 < length (filter (λ c, f c = x) l).
Proof.
  induction l as [|c l IH]; [by rewrite fmap_nil, elem_of_nil|].
  rewrite fmap_cons, elem_of_cons, filter_cons.
  destruct (decide (f c = x)); [simpl; lia|]. intros [? | ?]; [congruence | auto].
Qed.

Lemma filter_fmap_NoDup_length {A B} `{EqDecision B} (f : A → B) (x : B) (l : list A) :
  NoDup (f <$> l) → length (filter (λ c, f c = x) l) ≤ 1.
Proof.
  induction l as [|c l IH]; [simpl; lia|].
  rewrite fmap_cons, NoDup_cons. intros [Hc Hl]. rewrite filter_cons.
  destruct (decide (f c = x)) as [<- | Hne]; [|auto].
  rewrite filter_fmap_absent by done. simpl. lia.
Qed.

Lemma pending_count_le_1 w a : WF w → pending_count w a ≤ 1.
Proof.
  intros HWF. unfold pending_count. apply filter_fmap_NoDup_length with (f := connector_at w).
  apply HWF.
Qed.

Lemma pending_count_present w a :
  WF w → Some a ∈ connector_at w <$> pending_pools_ (manager w) → pending_count w a = 1.
Proof.
  intros HWF Hin. pose proof (pending_count_le_1 w a HWF).
  apply (filter_fmap_present (connector_at w)) in Hin. unfold pending_count in *. lia.
Qed.

Lemma add_present w a :
  WF w →
  is_Some (pools_ (manager w) !! a) ∨ Some a ∈ connector_at w <$> pending_pools_ (manager w) →
  add a w = inr (tt, w).
Proof.
  intros HWF Hor. unfold add, bind, get.
  destruct (pools_ (manager w) !! a) as [p|] eqn:Hp; [done|].
  destruct Hor as [[? [=]] | Hin].
  rewrite pending_for_eq by apply HWF. by rewrite bool_decide_eq_true_2.
Qed.

Lemma add_absent w a :
  WF w →
  pools_ (manager w) !! a = None →
  Some a ∉ connector_at w <$> pending_pools_ (manager w) →
  add a w =
  inr (tt, mkWorld (with_pending_pools
                      (pending_pools_ (manager w) ++ [fresh (dom (connector_heap w))])
                      (manager w))
                   (pool_heap w)
                   (<[fresh (dom (connector_heap w)) :=
                        mkConnectionPoolConnector a true false None]> (connector_heap w))
                   (calls w ++ [connector_connect (fresh (dom (connector_heap w)))])).
Proof.
  intros HWF Hp Hnot.
  unfold add, bind, get. rewrite Hp, pending_for_eq by apply HWF.
  rewrite bool_decide_eq_false_2 by done.
  unfold allocate_connector, modify, ConnectionPoolConnector_connect, bind, the_connector.
  cbn [manager pool_heap connector_heap calls]. rewrite lookup_insert_eq.
  unfold record, store_connector. cbn [manager pool_heap connector_heap calls].
  by rewrite insert_insert_eq.
Qed.

(** C3: [add(a)] changes nothing when a pool for [a] is registered or a
    connector for [a] is pending; [add(a)] followed by [add(a)] leaves what
    the first call left: the pool that was there, or else exactly one
    pending connector for [a]. *)
Theorem add_idempotent loop protocol_version ks metrics settings evs w a :
  run evs (boot loop protocol_version ks metrics settings) = inr (tt, w) →
  ∃ w1, add a w = inr (tt, w1)
    ∧ add a w1 = inr (tt, w1)
    ∧ (is_Some (pools_ (manager w) !! a)
       ∨ Some a ∈ connector_at w <$> pending_pools_ (manager w) → w1 = w)
    ∧ pools_ (manager w1) = pools_ (manager w)
    ∧ pending_count w1 a ≤ 1
    ∧ (pools_ (manager w) !! a = None → pending_count w1 a = 1).
Proof.
  intros Hrun.
  assert (WF w) as HWF by (eapply run_WF; [exact Hrun | apply boot_WF]).
  destruct (decide (is_Some (pools_ (manager w) !! a)
                    ∨ Some a ∈ connector_at w <$> pending_pools_ (manager w))) as [Hor | Hnor].
  - exists w. rewrite add_present by done. do 4 (split; [done|]).
    split; [by apply pending_count_le_1|].
    intros Hnone. apply pending_count_present; [done|].
    destruct Hor as [[? ?] | ?]; [congruence | done].
  - assert (pools_ (manager w) !! a = None) as Hnone.
    { destruct (pools_ (manager w) !! a) eqn:E; [|done]. destruct Hnor. left. eauto. }
    pose proof (add_absent w a HWF Hnone ltac:(tauto)) as Hadd.
    eexists. split; [exact Hadd|].
    match type of Hadd with _ = inr (_, ?v) => set (w1 := v) in * end.
    assert (WF w1) as HWF1 by eauto using add_WF.
    assert (Some a ∈ connector_at w1 <$> pending_pools_ (manager w1)) as Hin.
    { simpl. rewrite fmap_app, elem_of_app. right. simpl.
      unfold connector_at, connector_address_in. simpl. rewrite lookup_insert_eq. left. }
    split; [by apply add_present; auto|]. split; [tauto|].
    split; [done|]. split; [by apply pending_count_le_1|].
    intros _. by apply pending_count_present.
Qed.

(** [add(10.0.0.1:9042)] twice on a new manager: one connector, one
    [connect()]. *)
Lemma add_idempotent_witness :
  ∃ w1, add host1 fresh_manager = inr (tt, w1)
    ∧ add host1 w1 = inr (tt, w1)
    ∧ pending_count w1 host1 = 1.
Proof.
  destruct (add_idempotent 0 4 "ks" 0 example_settings [] fresh_manager host1)
    as (w1 & H1 & H2 & _ & _ & _ & H3).
  - reflexivity.
  - exists w1. split; [exact H1|]. split; [exact H2|]. apply H3. reflexivity.
Defined.

(** ** Closing the manager *)

Lemma pools_ok_heap ps h :
  pools_ok ps h → Forall (λ p, is_Some (h !! p)) (map_to_list ps).*2.
Proof.
  intros Hok. apply Forall_forall. intros p Hp.
  apply list_elem_of_fmap in Hp as ([a q] & -> & Hin). apply elem_of_map_to_list in Hin.
  apply Hok in Hin. unfold pool_address_in in Hin. simpl.
  destruct (h !! q); [eauto | done].
Qed.

Lemma pools_ok_NoDup ps h : pools_ok ps h → NoDup (map_to_list ps).*2.
Proof.
  intros Hok. apply NoDup_fmap_2_strong; [|apply NoDup_map_to_list].
  intros [a p] [b q] Ha Hb. simpl. intros <-.
  apply elem_of_map_to_list in Ha, Hb. apply Hok in Ha, Hb. congruence.
Qed.

Lemma elem_of_pool_list (ps : gmap Address positive) p :
  p ∈ (map_to_list ps).*2 ↔ ∃ a, ps !! a = Some p.
Proof.
  rewrite list_elem_of_fmap. split.
  - intros ([a q] & -> & Hin). apply elem_of_map_to_list in Hin. eauto.
  - intros [a Ha]. exists (a, p). split; [done|]. by apply elem_of_map_to_list.
Qed.

Lemma pending_ok_NoDup cs h : pending_ok cs h → NoDup cs.
Proof. intros [_ Hnd]. by apply NoDup_fmap_1 in Hnd. Qed.

Lemma ConnectionPool_closing_state obj :
  pool_state (ConnectionPool_closing obj) = closing
  ∨ pool_state (ConnectionPool_closing obj) = closed.
Proof. unfold ConnectionPool_closing. destruct obj as [a [] cs]; simpl; auto. Qed.

Lemma step_close_state ev w u w' :
  step ev w = inr (u, w') →
  close_state_le (close_state_ (manager w)) (close_state_ (manager w')).
Proof.
  intros H. destruct ev; cbn [step] in H; mexec; simpl in *.
  all: try (destruct (close_state_ (manager _)); done).
  all: repeat match goal with E : close_state_ _ = _ |- _ => rewrite E end; done.
Qed.

Lemma close_again w :
  WF w → close_state_ (manager w) ≠ CLOSE_STATE_OPEN → close w = inr (tt, w).
Proof.
  intros HWF Hs. unfold close, bind, get. rewrite decide_False by done.
  unfold ret, maybe_closed, bind, get.
  rewrite decide_False; [done|]. intros [Hc He]. by apply (wf_closing _ HWF).
Qed.

Lemma close_first w l :
  WF w → close_state_ (manager w) = CLOSE_STATE_OPEN → listener_ (manager w) = Some l →
  close w = inr (tt,
    mkWorld (if decide (pools_ (manager w) = ∅)
             then with_ref_count (pred (ref_count_ (manager w)))
                    (with_close_state CLOSE_STATE_CLOSED (manager w))
             else with_close_state CLOSE_STATE_CLOSING (manager w))
            (close_all (map_to_list (pools_ (manager w))).*2 (pool_heap w))
            (cancel_all (pending_pools_ (manager w)) (connector_heap w))
            (calls w ++ (pool_close <$> (map_to_list (pools_ (manager w))).*2)
                     ++ (connector_cancel <$> pending_pools_ (manager w))
                     ++ (if decide (pools_ (manager w) = ∅)
                         then [listener_call l on_close] else []))).
Proof.
  intros HWF Hs Hl.
  destruct (close w) as [f | [[] w']] eqn:E.
  { exfalso. repeat (progress (mexec; mfault)); simpl in *; try congruence.
    all: match goal with
         | Hn : ¬ Forall _ _ |- _ =>
             destruct Hn; first [apply pools_ok_heap, HWF | apply HWF]
         end. }
  mexec; simpl in *; simplify_eq.
  all: repeat (destruct (decide (pools_ _ = ∅)); try tauto).
  all: rewrite <- ?app_assoc, ?app_nil_r; reflexivity.
Qed.

Lemma close_WF w u w' : close w = inr (u, w') → WF w → WF w'.
Proof.
  intros H HWF. mexec; try done.
  all: destruct HWF as [H1 H2 H3 H4 H5 H6]; constructor; simpl; try done.
  all: try (wf_count H6; fail).
  all: try (wf_pools; fail).
  all: try (wf_pending; fail).
  all: simpl in *; intuition congruence.
Qed.

Lemma close_not_open w :
  close_state_ (manager w) ≠ CLOSE_STATE_OPEN → close w = maybe_closed w.
Proof.
  intros Hs. unfold close, bind, get. rewrite decide_False by done.
  unfold ret. reflexivity.
Qed.

(** C2: the first [close()], on an open manager, moves it to closing
    (and on to closed at once when there is no pool to wait for), calls
    [close()] on each registered pool once and [cancel()] on each pending
    connector once; a later [close()] is [maybe_closed()] alone and
    changes nothing; no entry point ever moves [close_state_] backwards. *)
Theorem close_iterates_once loop protocol_version ks metrics settings evs w :
  run evs (boot loop protocol_version ks metrics settings) = inr (tt, w) →
  (close_state_ (manager w) = CLOSE_STATE_OPEN →
     ∃ w' l, close w = inr (tt, w')
       ∧ listener_ (manager w) = Some l
       ∧ calls w' = calls w
                    ++ (pool_close <$> (map_to_list (pools_ (manager w))).*2)
                    ++ (connector_cancel <$> pending_pools_ (manager w))
                    ++ (if decide (pools_ (manager w) = ∅)
                        then [listener_call l on_close] else [])
       ∧ NoDup (map_to_list (pools_ (manager w))).*2
       ∧ (∀ p, p ∈ (map_to_list (pools_ (manager w))).*2
               ↔ ∃ a, pools_ (manager w) !! a = Some p)
       ∧ NoDup (pending_pools_ (manager w))
       ∧ close_state_ (manager w') =
           (if decide (pools_ (manager w) = ∅)
            then CLOSE_STATE_CLOSED else CLOSE_STATE_CLOSING)
       ∧ (∀ a p, pools_ (manager w) !! a = Some p →
            ∃ obj, pool_heap w' !! p = Some obj
                   ∧ (pool_state obj = closing ∨ pool_state obj = closed))
       ∧ (∀ c, c ∈ pending_pools_ (manager w) →
            ∃ obj, connector_heap w' !! c = Some obj ∧ connector_cancelled obj = true)
       ∧ close w' = maybe_closed w' ∧ close w' = inr (tt, w'))
  ∧ (close_state_ (manager w) ≠ CLOSE_STATE_OPEN →
     close w = maybe_closed w ∧ close w = inr (tt, w))
  ∧ (∀ ev w', step ev w = inr (tt, w') →
       close_state_le (close_state_ (manager w)) (close_state_ (manager w'))).
Proof.
  intros Hrun.
  assert (WF w) as HWF by (eapply run_WF; [exact Hrun | apply boot_WF]).
  split; [|split].
  - intros Hopen.
    destruct (listener_ (manager w)) as [l|] eqn:Hl; [|by destruct (wf_listener _ HWF)].
    pose proof (close_first w l HWF Hopen Hl) as Hclose.
    eexists _, l. split; [exact Hclose|]. split; [done|]. split; [done|].
    split; [eapply pools_ok_NoDup, HWF|]. split; [apply elem_of_pool_list|].
    split; [eapply pending_ok_NoDup, HWF|].
    split; [simpl; by destruct (decide (pools_ (manager w) = ∅))|].
    split; [|split].
    + intros a p Hp. simpl. rewrite close_all_lookup.
      rewrite decide_True by (apply elem_of_pool_list; eauto).
      apply (wf_pools _ HWF) in Hp. unfold pool_address_in in Hp.
      destruct (pool_heap w !! p) as [obj|]; [|done]. simpl. eexists. split; [done|].
      apply ConnectionPool_closing_state.
    + intros c Hc. simpl. rewrite cancel_all_lookup, decide_True by done.
      destruct (wf_pending _ HWF) as [Hall _]. rewrite Forall_forall in Hall.
      destruct (Hall c Hc) as [obj ->]. simpl. eauto.
    + assert (close_state_ (manager
                (mkWorld (if decide (pools_ (manager w) = ∅)
                  then with_ref_count (pred (ref_count_ (manager w)))
                         (with_close_state CLOSE_STATE_CLOSED (manager w))
                  else with_close_state CLOSE_STATE_CLOSING (manager w))
                 (close_all (map_to_list (pools_ (manager w))).*2 (pool_heap w))
                 (cancel_all (pending_pools_ (manager w)) (connector_heap w))
                 (calls w ++ (pool_close <$> (map_to_list (pools_ (manager w))).*2)
                     ++ (connector_cancel <$> pending_pools_ (manager w))
                     ++ (if decide (pools_ (manager w) = ∅)
                         then [listener_call l on_close] else []))))
              ≠ CLOSE_STATE_OPEN) as Hs
        by (simpl; by destruct (decide (pools_ (manager w) = ∅))).
      split; [by apply close_not_open|].
      apply close_again; [|done]. eapply close_WF; [exact Hclose | done].
  - intros Hs. split; [by apply close_not_open | by apply close_again].
  - intros ev w' Hstep. eapply step_close_state, Hstep.
Qed.

(** One pool registered and one connector pending when [close()] comes. *)
Lemma close_iterates_once_witness :
  ∃ w', close pool_up_and_connecting = inr (tt, w')
    ∧ calls w' = calls pool_up_and_connecting ++ [pool_close 1; connector_cancel 2]
    ∧ close_state_ (manager w') = CLOSE_STATE_CLOSING
    ∧ close w' = inr (tt, w').
Proof.
  destruct (proj1 (close_iterates_once 0 4 "ks" 0 example_settings
                     [ev_add host1; ev_connector_done 1 (connected [idle_connection]);
                      ev_add host2] pool_up_and_connecting ltac:(vm_compute; reflexivity)))
    as (w' & l & Hclose & _ & Hcalls & _ & _ & _ & Hstate & _ & _ & _ & Hagain).
  - vm_compute. reflexivity.
  - exists w'. split; [exact Hclose|]. split; [exact Hcalls|].
    split; [exact Hstate | exact Hagain].
Defined.

(** ** Pools and pending connectors are for different addresses *)

Lemma disjoint_in_delete ps cs h a : disjoint_in ps cs h → disjoint_in (delete a ps) cs h.
Proof.
  intros H b [p Hb]. apply lookup_delete_Some in Hb as [_ Hb]. apply H. eauto.
Qed.

Lemma disjoint_in_filter (P : positive → Prop) `{!∀ x, Decision (P x)} ps cs h :
  disjoint_in ps cs h → disjoint_in ps (filter P cs) h.
Proof.
  intros Hdis a Ha Hin. apply (Hdis a Ha).
  apply list_elem_of_fmap in Hin as (c & -> & Hc). apply list_elem_of_filter in Hc as [_ Hc].
  apply list_elem_of_fmap. eauto.
Qed.

Lemma disjoint_in_ext ps cs h h' :
  disjoint_in ps cs h →
  Forall (λ c, is_Some (h !! c)) cs →
  (∀ c, is_Some (h !! c) →
        is_Some (h' !! c) ∧ connector_address_in h' c = connector_address_in h c) →
  disjoint_in ps cs h'.
Proof.
  intros H Hall Hext a Ha Hin. apply (H a Ha).
  apply list_elem_of_fmap in Hin as (c & -> & Hc). apply list_elem_of_fmap.
  exists c. split; [|done]. rewrite Forall_forall in Hall. by apply Hext, Hall.
Qed.

Lemma disjoint_in_insert ps cs h a p :
  disjoint_in ps cs h → Some a ∉ connector_address_in h <$> cs →
  disjoint_in (<[a := p]> ps) cs h.
Proof.
  intros H Hnot b [q Hb]. apply lookup_insert_Some in Hb as [[<- <-] | [_ Hb]]; [done|].
  apply H. eauto.
Qed.

Lemma disjoint_in_snoc ps cs h c obj :
  disjoint_in ps cs h → Forall (λ c, is_Some (h !! c)) cs → h !! c = None →
  ps !! connector_address obj = None →
  disjoint_in ps (cs ++ [c]) (<[c := obj]> h).
Proof.
  intros H Hall Hc Hnone a Ha. rewrite fmap_app, not_elem_of_app. split.
  - intros Hin. apply (H a Ha). apply list_elem_of_fmap in Hin as (d & -> & Hd).
    apply list_elem_of_fmap. exists d. split; [|done].
    unfold connector_address_in. rewrite lookup_insert_ne; [done|].
    intros <-. rewrite Forall_forall in Hall. apply Hall in Hd as [? ?]. congruence.
  - simpl. unfold connector_address_in. rewrite lookup_insert_eq. simpl.
    rewrite list_elem_of_singleton. intros [= ->]. rewrite Hnone in Ha. by destruct Ha.
Qed.

Lemma NoDup_fmap_removed {A B} `{EqDecision A} (f : A → B) (c : A) (l : list A) :
  NoDup (f <$> l) → c ∈ l → f c ∉ f <$> filter (λ d, d ≠ c) l.
Proof.
  induction l as [|d l IH]; [by rewrite elem_of_nil|].
  rewrite fmap_cons, NoDup_cons, elem_of_cons, filter_cons. intros [Hd Hl] [-> | Hc].
  - rewrite decide_False by tauto. intros Hin. apply Hd.
    apply list_elem_of_fmap in Hin as (e & He & Hin). apply list_elem_of_filter in Hin as [_ ?].
    apply list_elem_of_fmap. eauto.
  - destruct (decide (d ≠ c)) as [Hne | Heq]; [|auto].
    rewrite fmap_cons, not_elem_of_cons. split; [|auto].
    intros Heq. apply Hd. rewrite <- Heq. apply list_elem_of_fmap. eauto.
Qed.

Ltac dj HWF :=
  lazymatch goal with
  | |- disjoint_in (delete _ _) _ _ => apply disjoint_in_delete; dj HWF
  | |- disjoint_in _ (filter _ _) _ => apply disjoint_in_filter; dj HWF
  | |- disjoint_in ?ps ?cs (cancel_all _ ?h) =>
      apply (disjoint_in_ext ps cs h);
      [dj HWF | apply HWF | apply connector_heap_cancel_all]
  | |- disjoint_in ?ps ?cs (<[_ := _]> ?h) =>
      apply (disjoint_in_ext ps cs h);
      [dj HWF | apply HWF | eapply connector_heap_store; [eassumption | done] ]
  | |- disjoint_in _ _ _ => assumption
  end.

Lemma step_disjoint ev w u w' :
  WF w → disjoint w → orderly w ev = true → step ev w = inr (u, w') → disjoint w'.
Proof.
  intros HWF Hdis Hord H. unfold disjoint in *.
  destruct ev; cbn [step] in H; mexec; try done; simpl.
  all: try (dj HWF; fail).
  - (* add *)
    rewrite insert_insert_eq. apply disjoint_in_snoc; try done.
    + apply HWF.
    + apply fresh_connector_None.
  - (* add_pool *)
    apply disjoint_in_insert; [done|].
    simpl in Hord. unfold pool_at, pool_address_in in Hord.
    match goal with E : pool_heap _ !! _ = Some _ |- _ => rewrite E in Hord end.
    simpl in Hord. by apply bool_decide_eq_true in Hord.
  - (* a connector hands over its pool *)
    simpl in Hord. apply bool_decide_eq_true in Hord.
    destruct (wf_pending _ HWF) as [Hall Hnd].
    apply disjoint_in_insert.
    + dj HWF.
    + match goal with
      | |- _ ∉ connector_address_in (<[_ := _]> ?h) <$> ?l =>
          replace (connector_address_in (<[c := _]> h) <$> l)
            with (connector_address_in h <$> l)
      end.
      * match goal with
        | E : ?h !! c = Some ?obj |- _ =>
            replace (Some (connector_address obj)) with (connector_address_in h c)
              by (unfold connector_address_in; by rewrite E)
        end.
        by apply NoDup_fmap_removed.
      * apply Forall_fmap_ext_1, Forall_forall. intros d Hd.
        apply list_elem_of_filter in Hd as [Hne _].
        unfold connector_address_in. by rewrite lookup_insert_ne.
Qed.

Lemma run_disjoint evs w u w' :
  WF w → disjoint w → run_obeys orderly evs w = true → run evs w = inr (u, w') → disjoint w'.
Proof.
  revert w. induction evs as [|ev evs IH]; intros w HWF Hdis Hord H; simpl in *.
  - minv. done.
  - apply bind_inr in H as ([] & w1 & H1 & H2).
    apply andb_prop in Hord as [Hev Hrest]. rewrite H1 in Hrest.
    eapply IH; [| | exact Hrest | exact H2].
    + eapply step_WF; eauto.
    + eapply step_disjoint; eauto.
Qed.

(** C4 as stated fails: after [add(host1)] the connector for [host1] is
    pending and no pool is registered; [add_pool] with a pool for [host1]
    registers it while the connector is still pending. *)
Lemma add_pool_breaks_disjointness :
  run [ev_add host1; ev_pool_built (mkConnectionPool host1 ready [idle_connection])]
      fresh_manager = inr (tt, pending_and_built)
  ∧ disjoint pending_and_built
  ∧ ∃ w', add_pool 1 pending_and_built = inr (tt, w') ∧ ¬ disjoint w'.
Proof.
  split; [vm_compute; reflexivity|]. split.
  - intros a [p Hp]. vm_compute in Hp. discriminate.
  - eexists. split; [vm_compute; reflexivity|].
    intros Hdis. apply (Hdis host1).
    + exists 1%positive. vm_compute. reflexivity.
    + vm_compute. left.
Qed.

(** C4 (amended): in every state reached by a run in which connectors
    complete only while pending and [add_pool] is only given a pool whose
    address has no pending connector, no address has both a pool and a
    pending connector; from such a state [add], [remove], [close],
    [notify_closed] and every other entry point keep it so, and so do
    [handle_connect] for a pending connector and [add_pool] under that
    condition. *)
Theorem pools_and_pending_disjoint loop protocol_version ks metrics settings evs w :
  run evs (boot loop protocol_version ks metrics settings) = inr (tt, w) →
  run_obeys orderly evs (boot loop protocol_version ks metrics settings) = true →
  disjoint w
  ∧ (∀ ev w', orderly w ev = true → step ev w = inr (tt, w') → disjoint w').
Proof.
  intros Hrun Hord.
  assert (WF w) as HWF by (eapply run_WF; [exact Hrun | apply boot_WF]).
  assert (disjoint w) as Hdis.
  { eapply run_disjoint; [apply boot_WF | | exact Hord | exact Hrun].
    intros a [p Hp]. simpl in Hp. by rewrite lookup_empty in Hp. }
  split; [done|]. intros ev w' Hev Hstep. eapply step_disjoint; eauto.
Qed.

(** A pool came up for [host1], was removed and reported closed, and
    [host1] is being added again. *)
Lemma pools_and_pending_disjoint_witness :
  disjoint (world_after [ev_add host1; ev_connector_done 1 (connected [idle_connection]);
                         ev_remove host1; ev_notify_closed 1 true; ev_add host1]
              fresh_manager).
Proof.
  refine (proj1 (pools_and_pending_disjoint 0 4 "ks" 0 example_settings
                   [ev_add host1; ev_connector_done 1 (connected [idle_connection]);
                    ev_remove host1; ev_notify_closed 1 true; ev_add host1] _ _ _)).
  - vm_compute. reflexivity.
  - vm_compute. reflexivity.
Defined.

(** ** [on_close] is the last callback *)




























(** ** Closing with a connector in flight *)



Lemma method_eq {A} (body : M A) w x w1 :
  ref_count_ (manager w) ≠ 0 → body w = inr (x, w1) → method body w = inr (tt, w1).
Proof.
  intros Hr Hb. unfold method, alive, bind, get.
  destruct (ref_count_ (manager w)); [done|]. unfold ret. by rewrite Hb.
Qed.



(** ** The flush set *)

(** X1: [flush()] calls [flush()] once on each pool of the flush set and
    empties the set; nothing else of the manager, the heaps or the earlier
    calls changes, and a second [flush()] makes no call.  It stops on the
    first pointer of the set that leads nowhere. *)
Theorem flush_drains_once w :
  (Forall (λ p, is_Some (pool_heap w !! p)) (elements (to_flush_ (manager w))) →
   ∃ w1, flush w = inr (tt, w1)
     ∧ calls w1 = calls w ++ (pool_flush <$> elements (to_flush_ (manager w)))
     ∧ NoDup (elements (to_flush_ (manager w)))
     ∧ (∀ p, p ∈ elements (to_flush_ (manager w)) ↔ p ∈ to_flush_ (manager w))
     ∧ manager w1 = with_to_flush ∅ (manager w)
     ∧ pool_heap w1 = pool_heap w
     ∧ connector_heap w1 = connector_heap w
     ∧ flush w1 = inr (tt, w1))
  ∧ (¬ Forall (λ p, is_Some (pool_heap w !! p)) (elements (to_flush_ (manager w))) →
     flush w = inl DanglingPool).
Proof.
  unfold flush, bind, get. rewrite for_each_flush. split.
  - intros Hall. rewrite decide_True by done. eexists. split; [reflexivity|].
    simpl. split; [done|]. split; [apply NoDup_elements|].
    split; [intros p; apply elem_of_elements|]. do 3 (split; [done|]).
    rewrite for_each_flush. simpl. rewrite elements_empty. simpl.
    unfold modify. simpl. by rewrite app_nil_r.
  - intros Hnot. by rewrite decide_False.
Qed.

Lemma flush_drains_once_witness :
  ∃ w1, flush (world_after [ev_requires_flush 1; ev_requires_flush 1] pool_up) = inr (tt, w1)
    ∧ calls w1 = calls pool_up ++ [pool_flush 1]
    ∧ flush w1 = inr (tt, w1).
Proof.
  destruct (proj1 (flush_drains_once
                     (world_after [ev_requires_flush 1; ev_requires_flush 1] pool_up)))
    as (w1 & Hflush & Hcalls & _ & _ & _ & _ & _ & Hagain).
  - vm_compute. constructor; [eauto | constructor].
  - exists w1. split; [exact Hflush|]. split; [exact Hcalls | exact Hagain].
Defined.

Lemma step_flush_set ev w u w' :
  step ev w = inr (u, w') →
  to_flush_ (manager w') = flush_set_after [ev] (to_flush_ (manager w)).
Proof.
  intros H. destruct ev; cbn [step] in H; mexec; simpl; try done.
Qed.

Lemma run_flush_set evs w u w' :
  run evs w = inr (u, w') →
  to_flush_ (manager w') = flush_set_after evs (to_flush_ (manager w)).
Proof.
  revert w. induction evs as [|ev evs IH]; intros w H; simpl in H.
  - minv. done.
  - apply bind_inr in H as ([] & w1 & H1 & H2).
    apply step_flush_set in H1. apply IH in H2. rewrite H2, H1. done.
Qed.

(** X2: only [requires_flush], [notify_closed] and [flush] touch the
    flush set: after any run it holds exactly the pools that asked for a
    flush since the last [flush()] and have not reported closed since they
    asked, and these are the pools the next [flush()] calls. *)
Theorem flush_set_follows_events evs w w' :
  run evs w = inr (tt, w') →
  to_flush_ (manager w') = flush_set_after evs (to_flush_ (manager w))
  ∧ (∀ w1, flush w' = inr (tt, w1) →
           calls w1 = calls w'
                      ++ (pool_flush <$> elements (flush_set_after evs (to_flush_ (manager w))))).
Proof.
  intros Hrun. pose proof (run_flush_set _ _ _ _ Hrun) as Hset. split; [done|].
  intros w1 Hflush. rewrite <- Hset. mexec. done.
Qed.

(** A pool asks for a flush and then reports closed: the next [flush()]
    does not call it. *)
Lemma flush_set_follows_events_witness :
  to_flush_ (manager (world_after [ev_requires_flush 1; ev_notify_closed 1 true] pool_up))
  = flush_set_after [ev_requires_flush 1; ev_notify_closed 1 true]
      (to_flush_ (manager pool_up)).
Proof.
  refine (proj1 (flush_set_follows_events [ev_requires_flush 1; ev_notify_closed 1 true]
                   pool_up _ _)).
  vm_compute. reflexivity.
Defined.

(** ** Registering a pool *)

(** X3: [add_pool(pool)] stores the pool under the pool's own address,
    replacing whatever was registered there, and does nothing else: no
    other entry of the pools map, no other field, no object and no call
    (a pool it replaces is not closed).  Doing it again, or [add()] for
    that address, changes nothing.  It stops on a pointer that leads
    nowhere. *)
Theorem add_pool_registers w pool :
  (∀ obj, pool_heap w !! pool = Some obj →
     ∃ w1, add_pool pool w = inr (tt, w1)
       ∧ manager w1 = with_pools (<[pool_address obj := pool]> (pools_ (manager w))) (manager w)
       ∧ pool_heap w1 = pool_heap w
       ∧ connector_heap w1 = connector_heap w
       ∧ calls w1 = calls w
       ∧ pools_ (manager w1) !! pool_address obj = Some pool
       ∧ (∀ a, a ≠ pool_address obj → pools_ (manager w1) !! a = pools_ (manager w) !! a)
       ∧ size (pools_ (manager w1)) =
           (if decide (is_Some (pools_ (manager w) !! pool_address obj))
            then size (pools_ (manager w)) else S (size (pools_ (manager w))))
       ∧ add_pool pool w1 = inr (tt, w1)
       ∧ add (pool_address obj) w1 = inr (tt, w1))
  ∧ (pool_heap w !! pool = None → add_pool pool w = inl DanglingPool).
Proof.
  unfold add_pool, internal_add_pool, ConnectionPool_address, bind, the_pool. split.
  - intros obj Hobj. rewrite Hobj. unfold ret, modify. eexists. split; [reflexivity|].
    cbn [manager pool_heap connector_heap calls]. do 4 (split; [done|]).
    split; [apply lookup_insert_eq|].
    split; [by intros a Ha; apply lookup_insert_ne|].
    split; [|split].
    + cbn [with_pools pools_]. destruct (decide _) as [[q Hq] | Hnone].
      * by apply map_size_insert_Some.
      * apply map_size_insert_None. by apply eq_None_not_Some.
    + rewrite Hobj. cbn [manager pool_heap connector_heap calls with_pools pools_].
      rewrite insert_insert_eq. by destruct w as [[] ? ? ?].
    + unfold add, bind, get. cbn [manager with_pools pools_].
      by rewrite lookup_insert_eq.
  - by intros ->.
Qed.

(** Over the pool for [host1] that is up, a second pool object for the
    same address is registered in its place. *)
Lemma add_pool_registers_witness :
  ∃ w1, add_pool 2 (world_after [ev_pool_built (mkConnectionPool host1 ready [])] pool_up)
        = inr (tt, w1)
    ∧ pools_ (manager w1) !! host1 = Some 2%positive
    ∧ size (pools_ (manager w1)) = 1.
Proof.
  destruct (proj1 (add_pool_registers
                     (world_after [ev_pool_built (mkConnectionPool host1 ready [])] pool_up) 2)
              (mkConnectionPool host1 ready []))
    as (w1 & Hadd & _ & _ & _ & _ & Hreg & _ & Hsize & _).
  - vm_compute. reflexivity.
  - exists w1. split; [exact Hadd|]. split; [exact Hreg|]. rewrite Hsize. vm_compute. reflexivity.
Defined.

(** ** The hosts with a pool *)

(** X4: [available()] changes nothing and returns the keys of the pools
    map, each once: an address is in the result exactly when a pool is
    registered for it, and the result has as many entries as the map. *)
Theorem available_lists_each_pool_once w :
  ∃ hosts, available w = inr (hosts, w)
    ∧ NoDup hosts
    ∧ (∀ a, a ∈ hosts ↔ is_Some (pools_ (manager w) !! a))
    ∧ length hosts = size (pools_ (manager w))
    ∧ (hosts = [] ↔ pools_ (manager w) = ∅).
Proof.
  exists (map_to_list (pools_ (manager w))).*1. split; [apply available_eq|].
  split; [apply NoDup_fst_map_to_list|]. split; [intros a; apply elem_of_available|].
  split; [by rewrite length_fmap, length_map_to_list|].
  split.
  - intros Hnil. apply fmap_nil_inv in Hnil. by apply map_to_list_empty_iff.
  - intros ->. by rewrite map_to_list_empty.
Qed.

(** ** Who is called back *)

Lemma delivered_to_nil l : delivered_to l [].
Proof. intros target cb Hin. by apply elem_of_nil in Hin. Qed.

Lemma delivered_to_app l cs ds :
  delivered_to l cs → delivered_to l ds → delivered_to l (cs ++ ds).
Proof. intros Hc Hd target cb Hin. apply elem_of_app in Hin as [Hin | Hin]; eauto. Qed.

Lemma delivered_to_one l l' cb : l' = l → delivered_to l [listener_call l' cb].
Proof. intros -> target cb' Hin. apply list_elem_of_singleton in Hin. congruence. Qed.

Lemma delivered_to_silent {A} l (f : A → Call) (xs : list A) :
  (∀ x, callback_of (f x) = None) → delivered_to l (f <$> xs).
Proof.
  intros Hf target cb Hin. apply list_elem_of_fmap in Hin as (x & Hx & _).
  specialize (Hf x). rewrite <- Hx in Hf. discriminate Hf.
Qed.

Lemma step_delivered ev w u w' l :
  step ev w = inr (u, w') →
  listener_ (manager w) = Some l →
  (∀ l', ev ≠ ev_set_listener l') →
  listener_ (manager w') = Some l
  ∧ ∃ new, calls w' = calls w ++ new ∧ delivered_to l new.
Proof.
  intros H Hl Hne. destruct ev; cbn [step] in H; mexec; simpl in *.
  all: try (exfalso; eapply Hne; reflexivity).
  all: split; [done|].
  all: first [ by exists []; split; [by rewrite app_nil_r | apply delivered_to_nil]
             | eexists; split; [rewrite <- ?app_assoc; reflexivity|] ].
  all: repeat first [ apply delivered_to_app
                    | apply delivered_to_one; congruence
                    | apply delivered_to_silent; done
                    | apply (delivered_to_silent l (λ _ : unit, _) [()]); done ].
Qed.

(** X5: every callback the manager makes goes through [listener_]: in a
    run without [set_listener] the installed listener stays installed and
    each listener call made during the run has it as its target; the calls
    made before the run are left as they were. *)
Theorem callbacks_go_to_installed_listener evs w w' l :
  run evs w = inr (tt, w') →
  listener_ (manager w) = Some l →
  (∀ l', ev_set_listener l' ∉ evs) →
  listener_ (manager w') = Some l
  ∧ ∃ new, calls w' = calls w ++ new ∧ delivered_to l new.
Proof.
  revert w. induction evs as [|ev evs IH]; intros w H Hl Hno; simpl in H.
  - minv. split; [done|]. exists []. split; [by rewrite app_nil_r | apply delivered_to_nil].
  - apply bind_inr in H as ([] & w1 & H1 & H2).
    eapply step_delivered in H1 as (Hl1 & new1 & Hc1 & Hd1); [|done|].
    + apply IH in H2 as (Hl2 & new2 & Hc2 & Hd2); [|done|].
      * split; [done|]. exists (new1 ++ new2). split; [|by apply delivered_to_app].
        by rewrite Hc2, Hc1, app_assoc.
      * intros l' Hin. apply (Hno l'). by right.
    + intros l' ->. apply (Hno l'). left.
Qed.


Lemma callbacks_go_to_installed_listener_witness :
  listener_ (manager (world_after one_pool_life listening)) = Some (user_listener 1)
  ∧ ∃ new, calls (world_after one_pool_life listening) = calls listening ++ new
           ∧ delivered_to (user_listener 1) new.
Proof.
  refine (callbacks_go_to_installed_listener one_pool_life listening _ (user_listener 1) _ _ _).
  - vm_compute. reflexivity.
  - reflexivity.
  - intros l' Hin. unfold one_pool_life in Hin.
    repeat (apply elem_of_cons in Hin as [Hin | Hin]; [discriminate Hin|]).
    by apply elem_of_nil in Hin.
Defined.

(** ** A pool reports closed *)

(** X6: the calls of [notify_closed(pool, should_notify_down)]: first
    [on_pool_down] for the pool's address if [should_notify_down], then
    [on_close] if the manager is closing and this was its last pool, in
    which case the manager becomes closed and drops its own reference;
    nothing else is called and no object changes.  The null check guards
    [on_pool_down] only: with a null listener the call is skipped, and the
    final [maybe_closed()] still calls through the pointer. *)
Theorem notify_closed_calls w pool obj b :
  pool_heap w !! pool = Some obj →
  (∀ l, listener_ (manager w) = Some l →
     ∃ w1, notify_closed pool b w = inr (tt, w1)
       ∧ calls w1 =
           calls w
           ++ (if b then [listener_call l (on_pool_down (pool_address obj))] else [])
           ++ (if decide (close_state_ (manager w) = CLOSE_STATE_CLOSING
                          ∧ delete (pool_address obj) (pools_ (manager w)) = ∅)
               then [listener_call l on_close] else [])
       ∧ close_state_ (manager w1) =
           (if decide (close_state_ (manager w) = CLOSE_STATE_CLOSING
                       ∧ delete (pool_address obj) (pools_ (manager w)) = ∅)
            then CLOSE_STATE_CLOSED else close_state_ (manager w))
       ∧ ref_count_ (manager w1) =
           (if decide (close_state_ (manager w) = CLOSE_STATE_CLOSING
                       ∧ delete (pool_address obj) (pools_ (manager w)) = ∅)
            then pred (ref_count_ (manager w)) else ref_count_ (manager w))
       ∧ pending_pools_ (manager w1) = pending_pools_ (manager w)
       ∧ pool_heap w1 = pool_heap w
       ∧ connector_heap w1 = connector_heap w)
  ∧ (listener_ (manager w) = None →
     if decide (close_state_ (manager w) = CLOSE_STATE_CLOSING
                ∧ delete (pool_address obj) (pools_ (manager w)) = ∅)
     then notify_closed pool b w = inl NullListener
     else ∃ w1, notify_closed pool b w = inr (tt, w1) ∧ calls w1 = calls w).
Proof.
  intros Hobj. split.
  - intros l Hl. destruct (notify_closed pool b w) as [f | [[] w1]] eqn:E.
    + exfalso. repeat (progress (mexec; mfault)); simpl in *; congruence.
    + exists w1. split; [done|]. mexec; simpl in *; simplify_eq.
      all: repeat case_decide; try tauto; simpl.
      all: rewrite <- ?app_assoc, ?app_nil_r; try done.
      all: repeat match goal with
           | Hb : context [bool_decide (listener_ _ ≠ None)] |- _ =>
               rewrite bool_decide_eq_true_2 in Hb by congruence
           end.
      all: destruct b; simpl in *; try discriminate; by rewrite ?app_nil_r.
  - intros Hl.
    cbv [notify_closed ConnectionPool_address maybe_closed listener_do bind the_pool get
         modify ret fault record dec_ref].
    cbn [manager pool_heap connector_heap calls]. rewrite Hobj.
    cbn [manager pool_heap connector_heap calls with_pools with_to_flush listener_
         close_state_ pools_].
    rewrite Hl. rewrite bool_decide_eq_false_2 by (intros Hn; by apply Hn).
    rewrite andb_false_r.
    cbn [manager pool_heap connector_heap calls with_pools with_to_flush listener_
         close_state_ pools_].
    destruct (decide _) as [Hlast | Hmore].
    + cbn [manager pool_heap connector_heap calls with_pools with_to_flush with_close_state
           listener_]. by rewrite Hl.
    + eexists. split; [reflexivity | done].
Qed.

(** The manager is closing and its only pool reports closed. *)
Lemma notify_closed_calls_witness :
  ∃ w1, notify_closed 1 true (world_after [ev_inc_ref; ev_close] pool_up) = inr (tt, w1)
    ∧ calls w1 = calls (world_after [ev_inc_ref; ev_close] pool_up)
                 ++ [listener_call nop_connection_pool_manager_listener__ (on_pool_down host1);
                     listener_call nop_connection_pool_manager_listener__ on_close].
Proof.
  destruct (proj1 (notify_closed_calls (world_after [ev_inc_ref; ev_close] pool_up) 1
                     (mkConnectionPool host1 closing [idle_connection]) true
                     ltac:(vm_compute; reflexivity))
              nop_connection_pool_manager_listener__)
    as (w1 & Hrun & Hcalls & _).
  - reflexivity.
  - exists w1. split; [exact Hrun|]. rewrite Hcalls. reflexivity.
Defined.

(** ** The reference the manager holds to itself *)

Lemma step_ref_count ev w u w' :
  step ev w = inr (u, w') →
  ref_count_ (manager w') + (if is_dec_ref ev then 1 else 0) + count_on_close (calls w')
  = ref_count_ (manager w) + (if is_inc_ref ev then 1 else 0) + count_on_close (calls w).
Proof.
  intros H. destruct ev; cbn [step] in H; mexec; simpl in *.
  all: autorewrite with wf; cbn [callback_of].
  all: repeat case_decide; simplify_eq; try done.
  all: repeat match goal with E : ref_count_ _ = S _ |- _ => rewrite E end.
  all: simpl; lia.
Qed.

Lemma run_ref_count evs w u w' :
  run evs w = inr (u, w') →
  ref_count_ (manager w') + count_events is_dec_ref evs + count_on_close (calls w')
  = ref_count_ (manager w) + count_events is_inc_ref evs + count_on_close (calls w).
Proof.
  revert w. induction evs as [|ev evs IH]; intros w H; simpl in H.
  - minv. simpl. lia.
  - apply bind_inr in H as ([] & w1 & H1 & H2).
    apply step_ref_count in H1. apply IH in H2. simpl. lia.
Qed.

(** X7: the constructor takes one reference on the manager, and the
    manager gives it back when it delivers [on_close], not before and not
    twice: at the end of any run the count is the references taken by
    others, less those they gave back, plus one while the manager is not
    closed. *)
Theorem self_reference_until_closed loop protocol_version ks metrics settings evs w :
  run evs (boot loop protocol_version ks metrics settings) = inr (tt, w) →
  ref_count_ (manager w) + count_events is_dec_ref evs
  = count_events is_inc_ref evs
    + (if decide (close_state_ (manager w) = CLOSE_STATE_CLOSED) then 0 else 1).
Proof.
  intros Hrun.
  assert (WF w) as HWF by (eapply run_WF; [exact Hrun | apply boot_WF]).
  apply run_ref_count in Hrun. destruct HWF as [_ _ _ _ _ Hcount].
  rewrite Hcount in Hrun.
  cbn [boot manager calls ConnectionPoolManager_new ref_count_] in Hrun.
  change (count_on_close []) with 0 in Hrun.
  destruct (decide (close_state_ (manager w) = CLOSE_STATE_CLOSED)); lia.
Qed.

(** The owner takes a reference, one pool lives and closes, the owner
    gives the reference back: the count is zero. *)
Lemma self_reference_until_closed_witness :
  ref_count_ (manager (world_after (ev_inc_ref :: one_pool_life ++ [ev_dec_ref])
                         fresh_manager)) + 1
  = 1 + 0.
Proof.
  refine (self_reference_until_closed 0 4 "ks" 0 example_settings
            (ev_inc_ref :: one_pool_life ++ [ev_dec_ref])
            (world_after (ev_inc_ref :: one_pool_life ++ [ev_dec_ref]) fresh_manager) _).
  vm_compute. reflexivity.
Defined.

(** ** The keyspace over a run *)





(** ** A connector that built its pool *)

Lemma fresh_pool_None (h : gmap positive ConnectionPool) : h !! fresh (dom h) = None.
Proof.
  destruct (h !! fresh (dom h)) eqn:E; [|done].
  assert (fresh (dom h) ∈ dom h) as Hin by (apply elem_of_dom; eauto).
  by apply is_fresh in Hin.
Qed.

Lemma complete_connected w c obj conns :
  connector_heap w !! c = Some obj →
  ConnectionPoolConnector_complete c (connected conns) w =
  inr (tt, mkWorld
             (with_pools (<[connector_address obj := fresh (dom (pool_heap w))]>
                            (pools_ (manager w)))
                (with_pending_pools (filter (λ d, d ≠ c) (pending_pools_ (manager w)))
                   (manager w)))
             (<[fresh (dom (pool_heap w)) :=
                  mkConnectionPool (connector_address obj) ready conns]> (pool_heap w))
             (<[c := mkConnectionPoolConnector (connector_address obj)
                       (connector_connecting obj) (connector_cancelled obj)
                       (Some (pool_ready (fresh (dom (pool_heap w)))))]> (connector_heap w))
             (calls w)).
Proof.
  intros Hobj.
  destruct (ConnectionPoolConnector_complete c (connected conns) w) as [f | [[] w']] eqn:E.
  - exfalso. repeat (progress (mexec; mfault)); simpl in *; try congruence.
    all: repeat match goal with
         | H : <[_ := _]> _ !! _ = None |- _ => rewrite lookup_insert_eq in H; discriminate H
         end.
  - mexec; simpl in *; simplify_eq. done.
Qed.

(** X9: a connector that reports a ready pool is taken out of the
    pending list and its pool is registered under the pool's address, so
    the host is in [available()] and a further [add] for it does nothing.
    [handle_connect] makes no call on this path (the pool announces itself
    later through [notify_up]) and reads neither the listener nor the close
    state. *)
Theorem ready_connector_registers_pool w c obj conns :
  connector_heap w !! c = Some obj →
  ∃ w' pool,
    ConnectionPoolConnector_complete c (connected conns) w = inr (tt, w')
    ∧ pool_heap w !! pool = None
    ∧ pool_heap w' = <[pool := mkConnectionPool (connector_address obj) ready conns]>
                       (pool_heap w)
    ∧ pending_pools_ (manager w') = filter (λ d, d ≠ c) (pending_pools_ (manager w))
    ∧ (c ∉ pending_pools_ (manager w'))
    ∧ pools_ (manager w') = <[connector_address obj := pool]> (pools_ (manager w))
    ∧ calls w' = calls w
    ∧ listener_ (manager w') = listener_ (manager w)
    ∧ close_state_ (manager w') = close_state_ (manager w)
    ∧ (∃ hosts, available w' = inr (hosts, w') ∧ connector_address obj ∈ hosts)
    ∧ find_least_busy (connector_address obj) w'
      = inr (least_busy_of (filter (λ conn, has_free_stream conn = true) conns), w')
    ∧ add (connector_address obj) w' = inr (tt, w').
Proof.
  intros Hobj. eexists. exists (fresh (dom (pool_heap w))).
  split; [by apply complete_connected|].
  cbn [manager pool_heap connector_heap calls with_pools with_pending_pools pools_
       pending_pools_ listener_ close_state_].
  split; [apply fresh_pool_None|]. do 2 (split; [done|]).
  split; [rewrite list_elem_of_filter; tauto|]. do 4 (split; [done|]).
  split; [|split].
  - eexists. split; [apply available_eq|]. apply elem_of_available.
    cbn [manager with_pools pools_]. rewrite lookup_insert_eq. eauto.
  - unfold find_least_busy, ConnectionPool_find_least_busy, bind, get, the_pool.
    cbn [manager pool_heap with_pools pools_]. rewrite lookup_insert_eq.
    cbn [pool_heap]. by rewrite lookup_insert_eq.
  - unfold add, bind, get. cbn [manager with_pools pools_]. by rewrite lookup_insert_eq.
Qed.

Lemma ready_connector_registers_pool_witness :
  ∃ w' pool,
    ConnectionPoolConnector_complete 1 (connected [idle_connection]) connecting_host2
    = inr (tt, w')
    ∧ pools_ (manager w') = <[host2 := pool]> (pools_ (manager connecting_host2))
    ∧ calls w' = calls connecting_host2.
Proof.
  destruct (ready_connector_registers_pool connecting_host2 1
              (mkConnectionPoolConnector host2 true false None) [idle_connection])
    as (w' & pool & Hrun & _ & _ & _ & _ & Hpools & Hcalls & _).
  - vm_compute. reflexivity.
  - exists w', pool. split; [exact Hrun|]. split; [exact Hpools | exact Hcalls].
Defined.

(** ** What [close()] leaves registered *)

Lemma connector_at_cancel_all cs w c :
  connector_address_in (cancel_all cs (connector_heap w)) c = connector_at w c.
Proof.
  unfold connector_at, connector_address_in. rewrite cancel_all_lookup.
  destruct (decide (c ∈ cs)); [|done]. by destruct (connector_heap w !! c).
Qed.

(** X10: [close()] takes nothing out of the manager: the pools map, the
    pending list and the flush set are as before, every pointer leads to
    an object for the same address, and [available()] lists the same
    hosts; a pool leaves only when it reports closed and a connector only
    when it completes.  So an [add] for an address that had a pool or a
    pending connector still does nothing after [close()]. *)
Theorem close_unregisters_nothing loop protocol_version ks metrics settings evs w :
  run evs (boot loop protocol_version ks metrics settings) = inr (tt, w) →
  ∃ w', close w = inr (tt, w')
    ∧ pools_ (manager w') = pools_ (manager w)
    ∧ pending_pools_ (manager w') = pending_pools_ (manager w)
    ∧ to_flush_ (manager w') = to_flush_ (manager w)
    ∧ (∀ p, pool_at w' p = pool_at w p)
    ∧ (∀ c, connector_at w' c = connector_at w c)
    ∧ (∀ hosts, available w = inr (hosts, w) → available w' = inr (hosts, w'))
    ∧ (∀ a, is_Some (pools_ (manager w) !! a)
            ∨ Some a ∈ connector_at w <$> pending_pools_ (manager w) →
            add a w' = inr (tt, w')).
Proof.
  intros Hrun.
  assert (WF w) as HWF by (eapply run_WF; [exact Hrun | apply boot_WF]).
  assert (∃ w', close w = inr (tt, w')
            ∧ pools_ (manager w') = pools_ (manager w)
            ∧ pending_pools_ (manager w') = pending_pools_ (manager w)
            ∧ to_flush_ (manager w') = to_flush_ (manager w)
            ∧ (∀ p, pool_at w' p = pool_at w p)
            ∧ (∀ c, connector_at w' c = connector_at w c)) as (w' & Hclose & Hps & Hcs & Hfs & Hp & Hc).
  { destruct (decide (close_state_ (manager w) = CLOSE_STATE_OPEN)) as [Hopen | Hnot].
    - destruct (listener_ (manager w)) as [l|] eqn:Hl; [|by destruct HWF].
      eexists. split; [by apply close_first|].
      cbn [manager pool_heap connector_heap].
      split; [by destruct (decide _)|]. split; [by destruct (decide _)|].
      split; [by destruct (decide _)|]. split.
      + intros p. unfold pool_at. cbn [pool_heap]. apply pool_address_in_close_all.
      + intros c. unfold connector_at at 1. cbn [connector_heap].
        apply connector_at_cancel_all.
    - exists w. split; [by apply close_again | done]. }
  exists w'. do 6 (split; [done|]). split.
  - intros hosts Ha. rewrite available_eq in Ha. rewrite available_eq, Hps. congruence.
  - intros a Ha. apply add_present.
    + eapply close_WF; [exact Hclose | exact HWF].
    + rewrite Hps, Hcs.
      replace (connector_at w' <$> pending_pools_ (manager w))
        with (connector_at w <$> pending_pools_ (manager w)); [done|].
      apply list_fmap_ext. intros ? c _. by rewrite Hc.
Qed.

(** [close()] while a pool is up and a connector for another host is
    pending: both hosts are still known. *)
Lemma close_unregisters_nothing_witness :
  ∃ w', close pool_up_and_connecting = inr (tt, w')
    ∧ pools_ (manager w') = pools_ (manager pool_up_and_connecting)
    ∧ pending_pools_ (manager w') = pending_pools_ (manager pool_up_and_connecting).
Proof.
  destruct (close_unregisters_nothing 0 4 "ks" 0 example_settings
              [ev_add host1; ev_connector_done 1 (connected [idle_connection]); ev_add host2]
              pool_up_and_connecting)
    as (w' & Hclose & Hps & Hcs & _).
  - vm_compute. reflexivity.
  - exists w'. split; [exact Hclose|]. split; [exact Hps | exact Hcs].
Defined.

(** ** [add] on a manager that is closing or closed *)

(** X11: [add] does not look at the close state: on a manager that is
    closing or closed, an address with neither pool nor pending connector
    gets a new connector, which is started and not cancelled, and a later
    [close()] does not cancel it either, since only the first [close()]
    walks the pending list. *)
Theorem add_after_close_is_not_cancelled loop protocol_version ks metrics settings evs w a :
  run evs (boot loop protocol_version ks metrics settings) = inr (tt, w) →
  close_state_ (manager w) ≠ CLOSE_STATE_OPEN →
  pools_ (manager w) !! a = None →
  Some a ∉ connector_at w <$> pending_pools_ (manager w) →
  ∃ w1 c obj, add a w = inr (tt, w1)
    ∧ pending_pools_ (manager w1) = pending_pools_ (manager w) ++ [c]
    ∧ connector_heap w1 !! c = Some obj
    ∧ connector_address obj = a
    ∧ connector_connecting obj = true
    ∧ connector_cancelled obj = false
    ∧ calls w1 = calls w ++ [connector_connect c]
    ∧ close_state_ (manager w1) = close_state_ (manager w)
    ∧ close w1 = inr (tt, w1).
Proof.
  intros Hrun Hnot Hpool Hpend.
  assert (WF w) as HWF by (eapply run_WF; [exact Hrun | apply boot_WF]).
  pose proof (add_absent w a HWF Hpool Hpend) as Hadd.
  eexists. exists (fresh (dom (connector_heap w))). eexists.
  split; [exact Hadd|]. cbn [manager connector_heap calls with_pending_pools pending_pools_
                             close_state_].
  split; [done|]. split; [apply lookup_insert_eq|]. do 5 (split; [done|]).
  apply close_again; [|done]. eapply add_WF; [exact Hadd | exact HWF].
Qed.

Lemma add_after_close_is_not_cancelled_witness :
  ∃ w1 c obj, add host1 closed_manager = inr (tt, w1)
    ∧ connector_heap w1 !! c = Some obj
    ∧ connector_cancelled obj = false
    ∧ close w1 = inr (tt, w1).
Proof.
  destruct (add_after_close_is_not_cancelled 0 4 "ks" 0 example_settings
              [ev_inc_ref; ev_close] closed_manager host1)
    as (w1 & c & obj & Hadd & _ & Hobj & _ & _ & Hcancelled & _ & _ & Hclose).
  - vm_compute. reflexivity.
  - vm_compute. discriminate.
  - reflexivity.
  - intros Hin. vm_compute in Hin. inversion Hin.
  - exists w1, c, obj. split; [exact Hadd|]. split; [exact Hobj|].
    split; [exact Hcancelled | exact Hclose].
Defined.

(** ** [remove] while the connector is pending *)

(** X12: [remove] looks in the pools map only: called between [add(a)]
    and the completion of the connector it does nothing, the connector is
    neither cancelled nor taken out of the pending list, and when it
    completes its pool is registered and [a] is in [available()]. *)
Theorem remove_leaves_pending_connect loop protocol_version ks metrics settings evs w a :
  run evs (boot loop protocol_version ks metrics settings) = inr (tt, w) →
  ref_count_ (manager w) ≠ 0 →
  pools_ (manager w) !! a = None →
  Some a ∉ connector_at w <$> pending_pools_ (manager w) →
  ∃ w1 c, add a w = inr (tt, w1)
    ∧ remove a w1 = inr (tt, w1)
    ∧ run [ev_add a; ev_remove a] w = inr (tt, w1)
    ∧ pending_pools_ (manager w1) = pending_pools_ (manager w) ++ [c]
    ∧ in_flight w1 c = true
    ∧ ∀ conns, ∃ w2 hosts,
        run [ev_connector_done c (connected conns)] w1 = inr (tt, w2)
        ∧ available w2 = inr (hosts, w2)
        ∧ a ∈ hosts.
Proof.
  intros Hrun Hrc Hpool Hpend.
  assert (WF w) as HWF by (eapply run_WF; [exact Hrun | apply boot_WF]).
  pose proof (add_absent w a HWF Hpool Hpend) as Hadd.
  set (c := fresh (dom (connector_heap w))) in *.
  set (w1 := mkWorld (with_pending_pools (pending_pools_ (manager w) ++ [c]) (manager w))
               (pool_heap w)
               (<[c := mkConnectionPoolConnector a true false None]> (connector_heap w))
               (calls w ++ [connector_connect c])) in *.
  assert (remove a w1 = inr (tt, w1)) as Hremove.
  { unfold remove, bind, get. cbn [w1 manager with_pending_pools pools_]. by rewrite Hpool. }
  exists w1, c. split; [exact Hadd|]. split; [exact Hremove|]. split; [|split; [|split]].
  - cbn [run]. rewrite (bind_eq _ _ w tt w1) by (by eapply method_eq).
    rewrite (bind_eq _ _ w1 tt w1) by (by eapply method_eq). done.
  - done.
  - unfold in_flight. cbn [w1 manager connector_heap with_pending_pools pending_pools_].
    rewrite lookup_insert_eq. cbn [connector_cancelled negb]. rewrite andb_true_r.
    apply bool_decide_eq_true. apply elem_of_app. right. apply list_elem_of_singleton. done.
  - intros conns.
    pose proof (complete_connected w1 c (mkConnectionPoolConnector a true false None) conns)
      as Hdone.
    cbn [w1 connector_heap] in Hdone. rewrite lookup_insert_eq in Hdone.
    specialize (Hdone eq_refl). eexists. eexists.
    split; [|split; [apply available_eq|]].
    + cbn [run step]. erewrite bind_eq; [reflexivity|]. eapply method_eq; [done|].
      exact Hdone.
    + apply elem_of_available. cbn [manager with_pools pools_ connector_address].
      rewrite lookup_insert_eq. eauto.
Qed.

Lemma remove_leaves_pending_connect_witness :
  ∃ w1 c, run [ev_add host2; ev_remove host2] pool_up = inr (tt, w1)
    ∧ in_flight w1 c = true.
Proof.
  destruct (remove_leaves_pending_connect 0 4 "ks" 0 example_settings
              [ev_add host1; ev_connector_done 1 (connected [idle_connection])]
              pool_up host2)
    as (w1 & c & _ & _ & Hrun & _ & Hflight & _).
  - vm_compute. reflexivity.
  - vm_compute. discriminate.
  - vm_compute. reflexivity.
  - intros Hin. vm_compute in Hin. inversion Hin.
  - exists w1, c. split; [exact Hrun | exact Hflight].
Defined.

(** ** What the two containers point to *)

(** X14: in every reachable state the pointers the manager keeps lead
    somewhere: each entry of the pools map is a live pool whose address is
    its key, so no pool is registered under two addresses, and the pending
    list holds live connectors, none twice and no two for the same
    address. *)
Theorem containers_hold_live_objects loop protocol_version ks metrics settings evs w :
  run evs (boot loop protocol_version ks metrics settings) = inr (tt, w) →
  (∀ a p, pools_ (manager w) !! a = Some p →
          ∃ obj, pool_heap w !! p = Some obj ∧ pool_address obj = a)
  ∧ (∀ a b p, pools_ (manager w) !! a = Some p → pools_ (manager w) !! b = Some p → a = b)
  ∧ (∀ c, c ∈ pending_pools_ (manager w) → is_Some (connector_heap w !! c))
  ∧ NoDup (pending_pools_ (manager w))
  ∧ (∀ i j c d a, pending_pools_ (manager w) !! i = Some c →
                  pending_pools_ (manager w) !! j = Some d →
                  connector_at w c = Some a → connector_at w d = Some a → i = j).
Proof.
  intros Hrun.
  assert (WF w) as [_ _ Hpools [Hlive Hdistinct] _ _]
    by (eapply run_WF; [exact Hrun | apply boot_WF]).
  assert (∀ a p, pools_ (manager w) !! a = Some p →
                 ∃ obj, pool_heap w !! p = Some obj ∧ pool_address obj = a) as Hown.
  { intros a p Hp. apply Hpools in Hp. unfold pool_address_in in Hp.
    destruct (pool_heap w !! p) as [obj|]; [|done]. exists obj. split; [done|].
    simpl in Hp. congruence. }
  split; [exact Hown|]. split; [|split; [|split]].
  - intros a b p Ha Hb. apply Hown in Ha as (obj & Hobj & <-).
    apply Hown in Hb as (obj' & Hobj' & <-). congruence.
  - by apply Forall_forall.
  - by apply NoDup_fmap_1 in Hdistinct.
  - intros i j c d a Hi Hj Hc Hd. eapply NoDup_lookup; [exact Hdistinct | |].
    + rewrite list_lookup_fmap, Hi. simpl. f_equal.
    + rewrite list_lookup_fmap, Hj. simpl. f_equal. unfold connector_at in Hc, Hd. congruence.
Qed.

Lemma containers_hold_live_objects_witness :
  ∃ obj, pool_heap pool_up_and_connecting !! 1%positive = Some obj ∧ pool_address obj = host1.
Proof.
  refine (proj1 (containers_hold_live_objects 0 4 "ks" 0 example_settings
                   [ev_add host1; ev_connector_done 1 (connected [idle_connection]);
                    ev_add host2] pool_up_and_connecting _) host1 1%positive _).
  - vm_compute. reflexivity.
  - vm_compute. reflexivity.
Defined.

(** ** A pool that reports closed after it was replaced *)

(** X15: [notify_closed] erases by address, whichever pool is the one
    registered there.  When [add_pool] has put another pool under the
    address of the pool that now reports closed, it is the entry of the
    other pool that goes: that pool was never asked to close and is still
    live, but it is registered nowhere, its host is not in [available()]
    and [find_least_busy] finds nothing for it. *)
Theorem notify_closed_erases_by_address loop protocol_version ks metrics settings evs w
    old new obj_old obj_new b :
  run evs (boot loop protocol_version ks metrics settings) = inr (tt, w) →
  pool_heap w !! old = Some obj_old →
  pool_heap w !! new = Some obj_new →
  pool_address obj_old = pool_address obj_new →
  pools_ (manager w) !! pool_address obj_new = Some new →
  ∃ w1, notify_closed old b w = inr (tt, w1)
    ∧ (∀ a, pools_ (manager w1) !! a ≠ Some new)
    ∧ pool_heap w1 !! new = Some obj_new
    ∧ (pool_close new ∈ calls w1 → pool_close new ∈ calls w)
    ∧ (∃ hosts, available w1 = inr (hosts, w1) ∧ pool_address obj_new ∉ hosts)
    ∧ find_least_busy (pool_address obj_new) w1 = inr (None, w1).
Proof.
  intros Hrun Hold Hnew Hsame Hreg.
  assert (WF w) as HWF by (eapply run_WF; [exact Hrun | apply boot_WF]).
  destruct (notify_closed old b w) as [f | [[] w1]] eqn:E.
  { exfalso. destruct HWF as [Hl _ _ _ _ _].
    repeat (progress (mexec; mfault)); simpl in *; congruence. }
  assert (pools_ (manager w1) = delete (pool_address obj_new) (pools_ (manager w))
          ∧ pool_heap w1 = pool_heap w
          ∧ (pool_close new ∈ calls w1 → pool_close new ∈ calls w)) as (Hps & Hheap & Hcalls).
  { mexec; simpl in *; simplify_eq; rewrite Hsame.
    all: split; [done|]; split; [done|].
    all: rewrite ?elem_of_app, ?list_elem_of_singleton; intuition congruence. }
  assert (pools_ (manager w1) !! pool_address obj_new = None) as Hgone
    by (rewrite Hps; apply lookup_delete_eq).
  exists w1. split; [done|]. split; [|split; [|split; [|split]]].
  - intros a Ha. rewrite Hps in Ha. apply lookup_delete_Some in Ha as [Hne Ha].
    destruct HWF as [_ _ Hpools _ _ _]. apply Hpools in Ha.
    unfold pool_address_in in Ha. rewrite Hnew in Ha. simpl in Ha. congruence.
  - by rewrite Hheap.
  - exact Hcalls.
  - eexists. split; [apply available_eq|]. rewrite elem_of_available, Hgone.
    by intros [? ?].
  - unfold find_least_busy, bind, get. by rewrite Hgone.
Qed.

(** The first pool for [host1] reports closed after a second one was
    registered in its place. *)
Lemma notify_closed_erases_by_address_witness :
  ∃ w1, notify_closed 1 true pool_replaced = inr (tt, w1)
    ∧ (∀ a, pools_ (manager w1) !! a ≠ Some 2%positive)
    ∧ pool_heap w1 !! 2%positive = Some (mkConnectionPool host1 ready []).
Proof.
  destruct (notify_closed_erases_by_address 0 4 "ks" 0 example_settings
              [ev_add host1; ev_connector_done 1 (connected [idle_connection]);
               ev_pool_built (mkConnectionPool host1 ready []); ev_add_pool 2]
              pool_replaced 1 2
              (mkConnectionPool host1 ready [idle_connection])
              (mkConnectionPool host1 ready []) true)
    as (w1 & Hrun & Hnowhere & Hlive & _).
  - vm_compute. reflexivity.
  - vm_compute. reflexivity.
  - vm_compute. reflexivity.
  - reflexivity.
  - vm_compute. reflexivity.
  - exists w1. split; [exact Hrun|]. split; [exact Hnowhere | exact Hlive].
Defined.

(** ** The public methods always return *)

Lemma set_keyspace_eq w k :
  keyspace_mutex_ (manager w) = false →
  set_keyspace k w
  = inr (tt, mkWorld (with_keyspace_mutex false
                        (with_keyspace k (with_keyspace_mutex true (manager w))))
               (pool_heap w) (connector_heap w) (calls w)).
Proof.
  intros Hm.
  unfold set_keyspace, ScopedMutex, uv_mutex_lock, uv_mutex_unlock, bind, get, modify, ret.
  by rewrite Hm.
Qed.

(** X16: on a live manager, in any reachable state, a call of
    [find_least_busy], [available], [add], [remove], [close],
    [set_listener], [keyspace] or [set_keyspace] returns: none of them
    meets a null listener, a pointer that leads nowhere or a held mutex.
    ([flush] is not among them: the flush set holds whatever pointers
    [requires_flush] was given.) *)
Theorem public_calls_return loop protocol_version ks metrics settings evs w ev :
  run evs (boot loop protocol_version ks metrics settings) = inr (tt, w) →
  ref_count_ (manager w) ≠ 0 →
  is_user_call ev = true →
  ∃ w', step ev w = inr (tt, w').
Proof.
  intros Hrun Hrc Huser.
  assert (WF w) as HWF by (eapply run_WF; [exact Hrun | apply boot_WF]).
  assert (∀ A (body : M A), (∃ x w', body w = inr (x, w')) →
                            ∃ w', method body w = inr (tt, w')) as Hmethod.
  { intros A body (x & w' & Hbody). exists w'. by eapply method_eq. }
  destruct ev; try discriminate Huser; cbn [step]; apply Hmethod.
  - destruct (find_least_busy address w) as [f | [r w']] eqn:E; [exfalso | eauto].
    destruct HWF as [_ _ Hpools _ _ _]. repeat (progress (mexec; mfault)).
    match goal with
    | Hp : pools_ _ !! _ = Some _ |- _ => apply Hpools in Hp; unfold pool_address_in in Hp
    end.
    simpl in *. by simplify_option_eq.
  - rewrite available_eq. eauto.
  - destruct (decide (is_Some (pools_ (manager w) !! address)
                      ∨ Some address ∈ connector_at w <$> pending_pools_ (manager w)))
      as [Hknown | Hnew].
    + rewrite add_present by done. eauto.
    + rewrite add_absent; [eauto | done | |].
      * apply eq_None_not_Some. tauto.
      * tauto.
  - destruct (remove address w) as [f | [r w']] eqn:E; [exfalso | eauto].
    destruct HWF as [_ _ Hpools _ _ _]. repeat (progress (mexec; mfault)).
    match goal with
    | Hp : pools_ _ !! _ = Some _ |- _ => apply Hpools in Hp; unfold pool_address_in in Hp
    end.
    simpl in *. by simplify_option_eq.
  - destruct (decide (close_state_ (manager w) = CLOSE_STATE_OPEN)) as [Hopen | Hnot].
    + destruct (listener_ (manager w)) as [l|] eqn:Hl; [|by destruct HWF].
      rewrite (close_first w l) by done. eauto.
    + rewrite close_again by done. eauto.
  - unfold set_listener, modify. eauto.
  - rewrite keyspace_eq by apply HWF. eauto.
  - rewrite set_keyspace_eq by apply HWF. eauto.
Qed.

Lemma public_calls_return_witness :
  ∃ w', step ev_close pool_up_and_connecting = inr (tt, w').
Proof.
  refine (public_calls_return 0 4 "ks" 0 example_settings
            [ev_add host1; ev_connector_done 1 (connected [idle_connection]); ev_add host2]
            pool_up_and_connecting ev_close _ _ _).
  - vm_compute. reflexivity.
  - vm_compute. discriminate.
  - reflexivity.
Defined.

End cass.

(** * The callbacks of a session: setters and getters *)

Module cql_callbacks.

Import cql.

Lemma apply_setters_snoc cs c this :
  apply_setters (cs ++ [c]) this = apply_setter (apply_setters cs this) c.
Proof. unfold apply_setters. by rewrite foldl_app. Qed.

Lemma last_omap_snoc {A B} (f : A → option B) (l : list A) (x : A) :
  last (omap f (l ++ [x])) = match f x with Some y => Some y | None => last (omap f l) end.
Proof.
  rewrite omap_app. simpl. destruct (f x) as [y|].
  - apply last_snoc.
  - by rewrite app_nil_r.
Qed.

(** X13: after any sequence of setter calls on a
    [cql_session_callback_info_t], each getter returns the argument of the
    last call of its own setter, and the value the constructor was given
    for that slot when its setter was never called: a setter writes its
    slot and no other. *)
Theorem getters_return_last_set (cs : list setter_call) (client ready defunct log : callback) :
  client_callback (apply_setters cs (cql_session_callback_info_new client ready defunct log))
  = default client (last (omap client_arg cs))
  ∧ ready_callback (apply_setters cs (cql_session_callback_info_new client ready defunct log))
    = default ready (last (omap ready_arg cs))
  ∧ defunct_callback (apply_setters cs (cql_session_callback_info_new client ready defunct log))
    = default defunct (last (omap defunct_arg cs))
  ∧ log_callback (apply_setters cs (cql_session_callback_info_new client ready defunct log))
    = default log (last (omap log_arg cs)).
Proof.
  induction cs as [|c cs IH] using rev_ind; [done|].
  destruct IH as (Hc & Hr & Hd & Hl).
  rewrite apply_setters_snoc, !last_omap_snoc. destruct c; simpl; done.
Qed.

End cql_callbacks.
